(** * redisds: Redis-backed list, set and dict views

    A shallow embedding of [redisds.py].  The classes [RedisList],
    [RedisSet] and [RedisDict] keep no local state beyond the key they
    are bound to; every method is a sequence of commands sent to the
    Redis server through a redis-py connection.  The embedding threads
    the server's keyspace through a small state-and-exception monad and
    models each method by the commands it issues, in source order. *)

From Stdlib Require Import ZArith NArith String Ascii List Bool Lia.
From stdpp Require Import base option list gmap strings pretty.

Local Open Scope Z_scope.
Set Warnings "-register-all".

(** ** Python values *)

(** The values that reach the methods as arguments or leave them as
    results.  A [str] is represented by its UTF-8 encoding, so that
    [str.encode] is the identity and [bytes.decode] is a validity check.
    The three view classes are represented by the key they are bound to
    (the connection is the keyspace threaded by the monad). *)
Inductive pyval : Type :=
  | PNone
  | PInt (z : Z)
  | PStr (s : string)
  | PBytes (b : string)
  | PList (l : list pyval)
  | PRedisList (key : string)
  | PRedisSet (key : string)
  | PRedisDict (key : string).

(** The exception classes the module raises or lets through.
    [ResponseError] (the server rejected a command) and [DataError] (the
    client refused to encode an argument) come from redis-py. *)
Inductive exn : Type :=
  | TypeError
  | ValueError
  | IndexError
  | KeyError
  | NameError
  | AttributeError
  | NotImplementedError
  | UnicodeDecodeError
  | ResponseError
  | DataError.

Global Instance exn_eq_dec : EqDecision exn.
Proof. solve_decision. Defined.

(** [isinstance(raised, handler)] for the classes above:
    [UnicodeDecodeError] derives from [ValueError], the others are
    unrelated to each other. *)
Definition exn_isinstance (raised handler : exn) : bool :=
  match raised, handler with
  | UnicodeDecodeError, ValueError => true
  | _, _ => bool_decide (raised = handler)
  end.

(** ** The keyspace *)

Inductive rvalue : Type :=
  | RList (l : list string)
  | RSet (s : gset string)
  | RHash (h : gmap string string).

Abbreviation store := (gmap string rvalue).

(** ** State and exceptions *)

Inductive outcome (A : Type) : Type :=
  | Return (a : A)
  | Raise (e : exn).
Arguments Return {A} a.
Arguments Raise {A} e.

(** A computation runs on a keyspace and gives the new keyspace with a
    value or an exception.  [None] is reserved for loops that exhaust
    their fuel, see [list_of_view_total]. *)
Definition M (A : Type) : Type := store -> option (store * outcome A).

Definition ret {A} (a : A) : M A := fun st => Some (st, Return a).
Definition raise {A} (e : exn) : M A := fun st => Some (st, Raise e).
Definition bind {A B} (c : M A) (k : A -> M B) : M B :=
  fun st =>
    match c st with
    | None => None
    | Some (st', Return a) => k a st'
    | Some (st', Raise e) => Some (st', Raise e)
    end.

(** [try: c except handler: h] *)
Definition try_except {A} (c : M A) (handler : exn) (h : M A) : M A :=
  fun st =>
    match c st with
    | Some (st', Raise e) =>
        if exn_isinstance e handler then h st' else Some (st', Raise e)
    | r => r
    end.

(** [try: c except: h], the bare handler that catches everything. *)
Definition try_except_all {A} (c : M A) (h : M A) : M A :=
  fun st =>
    match c st with
    | Some (st', Raise _) => h st'
    | r => r
    end.

Declare Scope redis_scope.
Delimit Scope redis_scope with redis.
Notation "x <- c ;; k" := (bind c (fun x => k))
  (at level 100, c at next level, right associativity) : redis_scope.
Notation "c ;; k" := (bind c (fun _ => k))
  (at level 100, right associativity) : redis_scope.
Local Open Scope redis_scope.

(** Monadic map over a list, left to right. *)
Fixpoint mapM {A B} (f : A -> M B) (l : list A) : M (list B) :=
  match l with
  | [] => ret []
  | x :: r => y <- f x ;; ys <- mapM f r ;; ret (y :: ys)
  end.

(** ** Names and attributes *)

(** Names bound at module level by [redisds.py], and the builtins its
    bodies mention.  A name that is neither local nor in these lists
    raises [NameError] when evaluated. *)
Definition module_names : list string :=
  ["Iterable"; "abc"; "string"; "random"; "ResponseError"; "uuid";
   "DECODER"; "CHARACTERS"; "IS_ITERABLE"; "RedisDSBase"; "RedisList";
   "RedisObjectList"; "RedisSet"; "RedisDict"; "raise_if_of_type"].

Definition builtin_names : list string :=
  ["isinstance"; "str"; "int"; "list"; "set"; "slice"; "len"; "bool";
   "type"; "range"; "sum"; "object"; "TypeError"; "ValueError";
   "IndexError"; "KeyError"; "NotImplementedError"; "None"; "True";
   "False"].

Definition eval_name {A} (locals : list string) (name : string) (a : A) : M A :=
  if bool_decide (name ∈ locals ++ module_names ++ builtin_names)
  then ret a else raise NameError.

(** Instance attributes, set by [RedisDSBase.__init__] and nowhere else. *)
Definition instance_attrs : list string := ["key"; "c"].

(** [self.name] on a view whose class defines or inherits [methods]. *)
Definition getattr_self {A} (methods : list string) (name : string) (a : A) : M A :=
  if bool_decide (name ∈ instance_attrs ++ methods)
  then ret a else raise AttributeError.

(** [RedisDSBase.__init__(self, connection, key)]: the view bound to
    [key], which has to be a [str]. *)
Definition RedisDSBase_init (key : pyval) : M string :=
  match key with
  | PStr k => ret k
  | _ => raise TypeError
  end.

(** ** UTF-8 *)

Definition byte_in (lo hi : N) (a : ascii) : bool :=
  ((lo <=? N_of_ascii a) && (N_of_ascii a <=? hi))%N.

Definition continuation : ascii -> bool := byte_in 0x80 0xBF.

(** Range of the second byte of a three- or four-byte sequence, which
    excludes overlong forms, surrogates and code points past U+10FFFF. *)
Definition second_ok (a b : ascii) : bool :=
  if byte_in 0xE0 0xE0 a then byte_in 0xA0 0xBF b
  else if byte_in 0xED 0xED a then byte_in 0x80 0x9F b
  else if byte_in 0xF0 0xF0 a then byte_in 0x90 0xBF b
  else if byte_in 0xF4 0xF4 a then byte_in 0x80 0x8F b
  else continuation b.

(** Well-formed UTF-8, what [bytes.decode("utf-8")] accepts. *)
Fixpoint valid_utf8 (s : string) : bool :=
  match s with
  | EmptyString => true
  | String a r =>
      if byte_in 0x00 0x7F a then valid_utf8 r
      else if byte_in 0xC2 0xDF a then
        match r with
        | String b r1 => continuation b && valid_utf8 r1
        | _ => false
        end
      else if byte_in 0xE0 0xEF a then
        match r with
        | String b (String c r2) =>
            second_ok a b && continuation c && valid_utf8 r2
        | _ => false
        end
      else if byte_in 0xF0 0xF4 a then
        match r with
        | String b (String c (String d r3)) =>
            second_ok a b && continuation c && continuation d && valid_utf8 r3
        | _ => false
        end
      else false
  end.

(** [DECODER = lambda byte: byte.decode("utf-8")] *)
Definition DECODER (b : string) : M string :=
  if valid_utf8 b then ret b else raise UnicodeDecodeError.

(** The characters of a [str]: each starts at a byte that is not a
    continuation byte. *)
Fixpoint chars_aux (s : string) : string * list string :=
  match s with
  | EmptyString => (EmptyString, [])
  | String a r =>
      let '(c, l) := chars_aux r in
      if continuation a then (String a c, l) else (EmptyString, String a c :: l)
  end.
Definition chars (s : string) : list string := snd (chars_aux s).

Definition bytes_of (s : string) : list Z :=
  map (fun a => Z.of_N (N_of_ascii a)) (list_ascii_of_string s).

(** ** The redis-py client and the Redis server

    Neither is part of the repository; the commands below follow the
    consumed interface listed by the specification (push-tail,
    get-at-index, get-range, truncate-keep-range, ...) and the Redis
    command reference.  A key that holds no value behaves as an empty
    list, set or hash, a container that becomes empty is removed, and a
    command applied to a value of another type is rejected with
    [ResponseError] ("WRONGTYPE"). *)

Section Client.

(** What the client does with an argument that is not [bytes], [str] or
    [int]: redis-py 3 and later refuse it ([None]), earlier releases
    send [str(value)].  The model is parametric in this choice. *)
Variable fallback : pyval -> option string.

Definition encode (v : pyval) : option string :=
  match v with
  | PBytes b => Some b
  | PStr s => Some s
  | PInt z => Some (pretty z)
  | _ => fallback v
  end.

Definition encode_arg (v : pyval) : M string :=
  match encode v with
  | Some b => ret b
  | None => raise DataError
  end.

(** An index argument.  [None] is not an integer: the client refuses to
    encode it, or sends a text the server does not read as an integer. *)
Definition int_arg (o : option Z) : M Z :=
  match o with
  | Some z => ret z
  | None => encode_arg PNone ;; raise ResponseError
  end.

Definition with_list {A} (k : string) (f : list string -> M A) : M A :=
  fun st =>
    match st !! k with
    | None => f [] st
    | Some (RList l) => f l st
    | Some _ => Some (st, Raise ResponseError)
    end.

Definition with_set {A} (k : string) (f : gset string -> M A) : M A :=
  fun st =>
    match st !! k with
    | None => f ∅ st
    | Some (RSet s) => f s st
    | Some _ => Some (st, Raise ResponseError)
    end.

Definition with_hash {A} (k : string) (f : gmap string string -> M A) : M A :=
  fun st =>
    match st !! k with
    | None => f ∅ st
    | Some (RHash h) => f h st
    | Some _ => Some (st, Raise ResponseError)
    end.

(** Writing a container back: an empty one removes the key. *)
Definition put_list (k : string) (l : list string) (st : store) : store :=
  match l with
  | [] => delete k st
  | _ => <[k := RList l]> st
  end.

Definition put_set (k : string) (s : gset string) (st : store) : store :=
  if bool_decide (s = ∅) then delete k st else <[k := RSet s]> st.

Definition put_hash (k : string) (h : gmap string string) (st : store) : store :=
  if bool_decide (h = ∅) then delete k st else <[k := RHash h]> st.

Definition set_list (k : string) (l : list string) : M unit :=
  fun st => Some (put_list k l st, Return tt).

Definition set_set (k : string) (s : gset string) : M unit :=
  fun st => Some (put_set k s st, Return tt).

Definition set_hash (k : string) (h : gmap string string) : M unit :=
  fun st => Some (put_hash k h st, Return tt).

(** The server reads an offset as a signed 64-bit integer and rejects
    the command when the argument does not fit. *)
Definition int64 (z : Z) : bool := (- 2 ^ 63 <=? z) && (z <? 2 ^ 63).

(** A list on a server holds fewer than 2^32 elements, so its length
    always fits; the lists of the model are not bounded, and for one
    whose own length would not fit the model reads every offset. *)
Definition offset_ok (l : list string) (i : Z) : bool :=
  int64 i || negb (int64 (Z.of_nat (length l) + 1)).

(** The elements a [start], [stop] pair selects, both ends inclusive,
    negative offsets counting from the tail, out-of-range offsets
    clipped (LRANGE and LTRIM share this). *)
Definition range_of (l : list string) (start stop : Z) : list string :=
  let len := Z.of_nat (length l) in
  let start := if start <? 0 then len + start else start in
  let stop := if stop <? 0 then len + stop else stop in
  let start := if start <? 0 then 0 else start in
  if (start >? stop) || (start >=? len) then []
  else
    let stop := if stop >=? len then len - 1 else stop in
    take (Z.to_nat (stop - start + 1)) (drop (Z.to_nat start) l).

(** DEL *)
Definition delete_key (k : string) : M Z :=
  fun st => Some (delete k st, Return (match st !! k with Some _ => 1 | None => 0 end)).

(** LLEN *)
Definition llen (k : string) : M Z :=
  with_list k (fun l => ret (Z.of_nat (length l))).

(** LINDEX: the element at the offset, or nil; a negative offset
    counts from the tail. *)
Definition element_at (l : list string) (i : Z) : option string :=
  let j := if i <? 0 then Z.of_nat (length l) + i else i in
  if j <? 0 then None else l !! Z.to_nat j.

(** The key is looked up first: without a list the reply is nil
    whatever the offset; with one, the offset has to be readable. *)
Definition lindex (k : string) (i : Z) : M (option string) :=
  with_list k (fun l =>
    match l with
    | [] => ret None
    | _ => if offset_ok l i then ret (element_at l i)
           else raise ResponseError
    end).

(** LRANGE: both offsets are read before the key is looked up. *)
Definition lrange (k : string) (start stop : Z) : M (list string) :=
  with_list k (fun l =>
    if offset_ok l start && offset_ok l stop
    then ret (range_of l start stop)
    else raise ResponseError).

(** LTRIM: as LRANGE; a rejected command trims nothing. *)
Definition ltrim (k : string) (start stop : Z) : M unit :=
  with_list k (fun l =>
    if offset_ok l start && offset_ok l stop
    then set_list k (range_of l start stop)
    else raise ResponseError).

(** RPUSH key value [value ...]: the client encodes every value, the
    server wants at least one. *)
Definition rpush (k : string) (values : list pyval) : M Z :=
  bs <- mapM encode_arg values ;;
  match bs with
  | [] => raise ResponseError
  | _ =>
      with_list k (fun l =>
        set_list k (l ++ bs) ;; ret (Z.of_nat (length (l ++ bs))))
  end.

(** SISMEMBER, SMEMBERS, SCARD *)
Definition sismember (k : string) (v : pyval) : M bool :=
  b <- encode_arg v ;; with_set k (fun s => ret (bool_decide (b ∈ s))).

Definition smembers (k : string) : M (gset string) :=
  with_set k (fun s => ret s).

Definition scard (k : string) : M Z :=
  with_set k (fun s => ret (Z.of_nat (size s))).

(** SADD and SREM with one member: the number of members added or
    removed. *)
Definition sadd (k : string) (v : pyval) : M Z :=
  b <- encode_arg v ;;
  with_set k (fun s =>
    if bool_decide (b ∈ s) then ret 0
    else set_set k ({[b]} ∪ s) ;; ret 1).

Definition srem (k : string) (v : pyval) : M Z :=
  b <- encode_arg v ;;
  with_set k (fun s =>
    if bool_decide (b ∈ s) then set_set k (s ∖ {[b]}) ;; ret 1
    else ret 0).

(** SINTER, and SUNIONSTORE, SINTERSTORE, SDIFFSTORE: the sets at
    [keys] are combined left to right and the result replaces whatever
    [dest] held. *)
Definition read_sets (keys : list string) : M (list (gset string)) :=
  match keys with
  | [] => raise ResponseError
  | _ => mapM smembers keys
  end.

Definition combine (op : gset string -> gset string -> gset string)
    (sets : list (gset string)) : gset string :=
  match sets with
  | [] => ∅
  | s :: r => foldl op s r
  end.

Definition sinter (keys : list string) : M (gset string) :=
  sets <- read_sets keys ;; ret (combine (∩) sets).

Definition store_op (op : gset string -> gset string -> gset string)
    (dest : string) (keys : list string) : M Z :=
  sets <- read_sets keys ;;
  set_set dest (combine op sets) ;;
  ret (Z.of_nat (size (combine op sets))).

Definition sunionstore := store_op (∪).
Definition sinterstore := store_op (∩).
Definition sdiffstore := store_op (∖).

(** HGET, HSET, HDEL, HLEN, HGETALL *)
Definition hget (k : string) (field : pyval) : M (option string) :=
  f <- encode_arg field ;; with_hash k (fun h => ret (h !! f)).

Definition hset (k : string) (field val : pyval) : M Z :=
  f <- encode_arg field ;;
  v <- encode_arg val ;;
  with_hash k (fun h =>
    set_hash k (<[f := v]> h) ;; ret (match h !! f with Some _ => 0 | None => 1 end)).

Definition hdel (k : string) (field : pyval) : M Z :=
  f <- encode_arg field ;;
  with_hash k (fun h =>
    match h !! f with
    | Some _ => set_hash k (delete f h) ;; ret 1
    | None => ret 0
    end).

Definition hlen (k : string) : M Z :=
  with_hash k (fun h => ret (Z.of_nat (size h))).

Definition hgetall (k : string) : M (gmap string string) :=
  with_hash k (fun h => ret h).

(** ** Builtins on the modelled values *)

Inductive pytype : Type := TInt | TIterable.

Definition isinstance (v : pyval) (typ : pytype) : bool :=
  match typ, v with
  | TInt, PInt _ => true
  | TInt, _ => false
  | TIterable, (PNone | PInt _) => false
  | TIterable, _ => true
  end.

(** What evaluating [str(v)] runs: [RedisList.__repr__] and
    [RedisDict.__repr__] read the key, the other values print without
    touching the store.  Only the effect is modelled, not the text. *)
Fixpoint str_effect (v : pyval) : M unit :=
  match v with
  | PRedisList k => l <- lrange k 0 (-1) ;; mapM DECODER l ;; ret tt
  | PRedisDict k => hgetall k ;; ret tt
  | PList l =>
      (fix each (l : list pyval) : M unit :=
         match l with
         | [] => ret tt
         | x :: r => str_effect x ;; each r
         end) l
  | _ => ret tt
  end.

(** [raise_if_of_type(v, typ)] raises when [v] is NOT of the type; the
    message is formatted from [v] first. *)
Definition raise_if_of_type (v : pyval) (typ : pytype) : M unit :=
  if negb (isinstance v typ) then str_effect v ;; raise TypeError
  else ret tt.

(** ** RedisList *)

(** The argument of [__getitem__]: an [int], a [slice] with its three
    fields, or anything else. *)
Inductive index : Type :=
  | IInt (i : Z)
  | ISlice (start stop step : option Z)
  | IOther.

Definition RedisList_append (key : string) (values : list pyval) : M unit :=
  rpush key values ;; ret tt.

Definition RedisList_clear (key : string) : M unit :=
  delete_key key ;; ret tt.

Definition RedisList_sliced (key : string) (start stop step : option Z)
    : M pyval :=
  match step with
  | Some _ => raise NotImplementedError
  | None =>
      s <- int_arg start ;;
      e <- int_arg stop ;;
      l <- lrange key s e ;;
      ds <- mapM DECODER l ;;
      ret (PList (map PStr ds))
  end.

(** [not val] for the reply of LINDEX: true for nil and for the empty
    byte string. *)
Definition falsy (val : option string) : bool :=
  match val with
  | None => true
  | Some b => bool_decide (b = EmptyString)
  end.

Definition RedisList_getitem_int (key : string) (i : Z) : M string :=
  val <- lindex key i ;;
  if falsy val then raise IndexError
  else DECODER (default EmptyString val).

Definition RedisList_getitem (key : string) (idx : index) : M pyval :=
  match idx with
  | IInt i => s <- RedisList_getitem_int key i ;; ret (PStr s)
  | ISlice start stop step => RedisList_sliced key start stop step
  | IOther => ret PNone
  end.

Definition RedisList_len (key : string) : M Z := llen key.

(** [Sequence.__iter__], inherited from [abc.MutableSequence]: fetch
    [self[0]], [self[1]], ... until [IndexError]. *)
Fixpoint iter_from (fuel : nat) (key : string) (i : Z) : M (list string) :=
  match fuel with
  | O => fun _ => None
  | S fuel' =>
      try_except
        (v <- RedisList_getitem_int key i ;;
         rest <- iter_from fuel' key (i + 1) ;;
         ret (v :: rest))
        IndexError
        (ret [])
  end.

(** [list(self)]: [list] asks [len(self)] for a size hint and then
    drains the iterator.  The index one past the length has no element,
    which bounds the loop. *)
Definition list_of_view (key : string) : M (list string) :=
  n <- RedisList_len key ;;
  iter_from (S (Z.to_nat n)) key 0.

(** [RedisSet.__iter__]: the members, decoded. *)
Definition RedisSet_iter (key : string) : M (list string) :=
  s <- smembers key ;; mapM DECODER (elements s).

(** [RedisDict.__iter__]: the field names of [hgetall], as bytes. *)
Definition RedisDict_iter (key : string) : M (list string) :=
  h <- hgetall key ;; ret (map fst (map_to_list h)).

(** [list(v)] *)
Definition py_list (v : pyval) : M (list pyval) :=
  match v with
  | PList l => ret l
  | PStr s => ret (map PStr (chars s))
  | PBytes b => ret (map PInt (bytes_of b))
  | PRedisList k => l <- list_of_view k ;; ret (map PStr l)
  | PRedisSet k => l <- RedisSet_iter k ;; ret (map PStr l)
  | PRedisDict k => l <- RedisDict_iter k ;; ret (map PBytes l)
  | PNone | PInt _ => raise TypeError
  end.

Definition RedisList_extend (key : string) (iterable : pyval) : M unit :=
  l <- py_list iterable ;; rpush key l ;; ret tt.

(** [__iadd__]: no [return] statement, so the call evaluates to
    [None]. *)
Definition RedisList_iadd (key : string) (new_list : pyval) : M pyval :=
  raise_if_of_type new_list TIterable ;;
  new_list <- match new_list with
              | PList _ => ret new_list
              | _ => l <- py_list new_list ;; ret (PList l)
              end ;;
  RedisList_append key [new_list] ;;
  ret PNone.

(** [for i in range(0, n): body] *)
Fixpoint for_range (n : nat) (body : M unit) : M unit :=
  match n with
  | O => ret tt
  | S n' => body ;; for_range n' body
  end.

(** [__imul__]: [current] is [self], so each round re-reads the list. *)
Definition RedisList_imul (key : string) (value : pyval) : M pyval :=
  raise_if_of_type value TInt ;;
  match value with
  | PInt n =>
      (if n <? 1 then RedisList_clear key else ret tt) ;;
      (if n >? 1
       then for_range (Z.to_nat (n - 1))
                      (RedisList_extend key (PRedisList key))
       else ret tt) ;;
      ret PNone
  | _ => ret PNone (* not reached: the check above has raised *)
  end.

(** [l[i:]] on a local list. *)
Definition slice_from {A} (l : list A) (i : Z) : list A :=
  let len := Z.of_nat (length l) in
  let i := if i <? 0 then Z.max (len + i) 0 else Z.min i len in
  drop (Z.to_nat i) l.

Definition RedisList_insert (key : string) (i : Z) (v : pyval) : M pyval :=
  full_list <- list_of_view key ;;
  try_except_all
    (let post := slice_from full_list i in
     ltrim key 0 (i - 1) ;;
     RedisList_append key [v] ;;
     RedisList_extend key (PList (map PStr post)) ;;
     ret PNone)
    (raise ValueError).

(** ** RedisSet *)

(** The methods [RedisSet] defines, and those it inherits from
    [abc.MutableSet]. *)
Definition RedisSet_methods : list string :=
  ["__contains__"; "__iter__"; "__len__"; "add"; "discard"; "copy";
   "clear"; "difference"; "difference_update"; "intersection";
   "intersection_update"; "isdisjoint"; "issubset"; "issuperset"; "pop";
   "remove"; "symmetric_difference"; "symmetric_difference_update";
   "union"; "update"; "__le__"; "__lt__"; "__ge__"; "__gt__"; "__eq__";
   "__ne__"; "__and__"; "__or__"; "__sub__"; "__xor__"; "__rand__";
   "__ror__"; "__rsub__"; "__rxor__"; "__iand__"; "__ior__"; "__isub__";
   "__ixor__"; "_from_iterable"; "_hash"; "__init__"].

(** [isinstance(o, cls)] with [cls = type(self)], the class [RedisSet]
    (it has no subclass). *)
Definition is_RedisSet (o : pyval) : bool :=
  match o with
  | PRedisSet _ => true
  | _ => false
  end.

(** [[o.key for o in others if isinstance(o, cls)]] *)
Definition other_keys (others : list pyval) : list string :=
  omap (fun o => match o with PRedisSet k => Some k | _ => None end) others.

Definition RedisSet_contains (key : string) (element : pyval) : M bool :=
  sismember key element.

Definition RedisSet_len (key : string) : M Z := scard key.

Definition RedisSet_add (key : string) (element : pyval) : M pyval :=
  sadd key element ;; ret PNone.

Definition RedisSet_discard (key : string) (element : pyval) : M pyval :=
  srem key element ;; ret PNone.

Definition RedisSet_remove (key : string) (element : pyval) : M pyval :=
  r <- srem key element ;;
  if r =? 0 then raise KeyError else ret PNone.

(** The three materializing operations.  [uid] is the value of
    [uuid.uuid1().int]; the new view is built by [cls(self.con, key)]
    before the store command is sent. *)
Definition RedisSet_materialize
    (command : string -> list string -> M Z)
    (uid : Z) (key : string) (others : list pyval) : M pyval :=
  let keys := other_keys others in
  let new_key := PInt uid in
  getattr_self RedisSet_methods "con" tt ;;
  other <- RedisDSBase_init new_key ;;
  command (pretty uid) (key :: keys) ;;
  ret (PRedisSet other).

Definition RedisSet_difference := RedisSet_materialize sdiffstore.
Definition RedisSet_intersection := RedisSet_materialize sinterstore.

(** [difference_update] and [intersection_update] test a name [other]
    that is bound nowhere; both end in SDIFFSTORE onto the own key. *)
Definition RedisSet_update_with (key : string) (others : list pyval) : M pyval :=
  let keys := other_keys others in
  eval_name ["self"; "others"; "cls"; "other_keys"] "other" tt ;;
  sdiffstore key keys ;;
  ret PNone.

Definition RedisSet_difference_update := RedisSet_update_with.
Definition RedisSet_intersection_update := RedisSet_update_with.

Definition RedisSet_isdisjoint (key : string) (other : pyval) : M bool :=
  match other with
  | PRedisSet k' => s <- sinter [key; k'] ;; ret (bool_decide (s = ∅))
  | _ => raise TypeError
  end.

(** Hashable values, the elements of a local [set]. *)
Inductive atom : Type :=
  | ANone
  | AInt (z : Z)
  | AStr (s : string)
  | ABytes (b : string).

Global Instance atom_eq_dec : EqDecision atom.
Proof. solve_decision. Defined.

(** Lists and the three views define [__eq__] without [__hash__] and
    cannot be set elements. *)
Definition hash_atom (v : pyval) : M atom :=
  match v with
  | PNone => ret ANone
  | PInt z => ret (AInt z)
  | PStr s => ret (AStr s)
  | PBytes b => ret (ABytes b)
  | _ => raise TypeError
  end.

(** [set(v)], as the list of its elements. *)
Definition py_set (v : pyval) : M (list atom) :=
  l <- py_list v ;; mapM hash_atom l.

(** [a == b] on two local sets. *)
Definition set_eqb (a b : list atom) : bool :=
  forallb (fun x => bool_decide (x ∈ b)) a
  && forallb (fun x => bool_decide (x ∈ a)) b.

(** [len(v)] *)
Definition py_len (v : pyval) : M Z :=
  match v with
  | PList l => ret (Z.of_nat (length l))
  | PStr s => ret (Z.of_nat (length (chars s)))
  | PBytes b => ret (Z.of_nat (String.length b))
  | PRedisList k => RedisList_len k
  | PRedisSet k => RedisSet_len k
  | PRedisDict k => hlen k
  | PNone | PInt _ => raise TypeError
  end.

Definition RedisSet_eq (key : string) (other : pyval) : M bool :=
  n <- py_len (PRedisSet key) ;;
  m <- py_len other ;;
  if n =? m then
    a <- py_set (PRedisSet key) ;;
    b <- py_set other ;;
    if set_eqb a b then ret true else ret false
  else ret false.

Definition RedisSet_ne (key : string) (other : pyval) : M bool :=
  if negb (is_RedisSet other) then raise TypeError
  else b <- RedisSet_eq key other ;; ret (negb b).

(** ** RedisDict *)

(** [__getitem__(self, field)]: the [raise] statement builds its
    argument from the name [key]. *)
Definition RedisDict_getitem (key : string) (field : pyval) : M pyval :=
  val <- hget key field ;;
  match val with
  | Some b => ret (PBytes b)
  | None => eval_name ["self"; "field"; "val"] "key" tt ;; raise KeyError
  end.

Definition RedisDict_setitem (key : string) (field val : pyval) : M pyval :=
  hset key field val ;; ret PNone.

Definition RedisDict_delitem (key : string) (k : pyval) : M pyval :=
  r <- hdel key k ;;
  if r =? 0 then raise KeyError else ret PNone.

Definition RedisDict_get (key : string) (k default : pyval) : M pyval :=
  try_except (RedisDict_getitem key k) KeyError (ret default).

End Client.

(** ** Two clients *)

(** redis-py 3 and later: only bytes, strings and numbers are sent. *)
Definition strict_fallback (v : pyval) : option string := None.

(** [repr] (which is [str] for everything but a [str] itself) of
    [None], integers, ASCII strings, bytes and lists of these, following
    CPython: the quote is the double quote when the text holds a single
    quote and no double quote, the single quote otherwise; the quote
    and the backslash are escaped, tab, newline and carriage return are
    written as escapes, and every other byte that is not printable
    ASCII as [\xNN].  Strings with characters beyond ASCII and the
    three views (whose text depends on the store or on an address) are
    outside the modelled part. *)
Definition hex_digit (n : N) : ascii :=
  ascii_of_N (if (n <? 10)%N then 48 + n else 87 + n).

Definition is_ascii (s : string) : bool :=
  forallb (byte_in 0x00 0x7F) (list_ascii_of_string s).

Definition has_byte (n : N) (s : string) : bool :=
  existsb (byte_in n n) (list_ascii_of_string s).

Definition repr_quote (s : string) : ascii :=
  if has_byte 0x27 s && negb (has_byte 0x22 s)
  then ascii_of_N 0x22 else ascii_of_N 0x27.

Definition repr_char (quote : ascii) (a : ascii) : string :=
  let n := N_of_ascii a in
  let backslash := ascii_of_N 0x5C in
  if (n =? N_of_ascii quote)%N || (n =? 0x5C)%N
  then String backslash (String a EmptyString)
  else if (n =? 0x09)%N then String backslash "t"
  else if (n =? 0x0A)%N then String backslash "n"
  else if (n =? 0x0D)%N then String backslash "r"
  else if (n <? 0x20)%N || (0x7F <=? n)%N
  then String backslash
         (String "x" (String (hex_digit (n / 16)) (String (hex_digit (n mod 16))
                                                          EmptyString)))
  else String a EmptyString.

Definition repr_text (s : string) : string :=
  let quote := repr_quote s in
  String quote
    (String.concat EmptyString
       (map (repr_char quote) (list_ascii_of_string s))
     +:+ String quote EmptyString).

Fixpoint py_repr (v : pyval) : option string :=
  match v with
  | PNone => Some "None"
  | PInt z => Some (pretty z)
  | PStr s => if is_ascii s then Some (repr_text s) else None
  | PBytes b => Some ("b" +:+ repr_text b)
  | PList l =>
      let fix items (l : list pyval) : option string :=
        match l with
        | [] => Some ""
        | [x] => py_repr x
        | x :: r =>
            match py_repr x, items r with
            | Some a, Some b => Some (a +:+ ", " +:+ b)
            | _, _ => None
            end
        end in
      match items l with
      | Some s => Some ("[" +:+ s +:+ "]")
      | None => None
      end
  | _ => None
  end.

(** redis-py 2: any other value is sent as [str(value)].  Only [None],
    lists and views reach the fallback; on the first two it is
    [py_repr]. *)
Definition legacy_fallback (v : pyval) : option string := py_repr v.

(** ** What a key holds *)

Definition contents (st : store) (k : string) : option (list string) :=
  match st !! k with
  | None => Some []
  | Some (RList l) => Some l
  | Some _ => None
  end.

Definition members (st : store) (k : string) : option (gset string) :=
  match st !! k with
  | None => Some ∅
  | Some (RSet s) => Some s
  | Some _ => None
  end.

Definition fields (st : store) (k : string) : option (gmap string string) :=
  match st !! k with
  | None => Some ∅
  | Some (RHash h) => Some h
  | Some _ => None
  end.

(** An element [list(self)] reads back: not empty, and valid UTF-8. *)
Definition text (b : string) : bool :=
  negb (bool_decide (b = EmptyString)) && valid_utf8 b.

(** [l[:i]] on a local list. *)
Definition slice_to {A} (l : list A) (i : Z) : list A :=
  let len := Z.of_nat (length l) in
  let i := if i <? 0 then Z.max (len + i) 0 else Z.min i len in
  take (Z.to_nat i) l.

(** What [n - 1] rounds of [self.extend(self)] make of a list. *)
Definition doubled (rounds : nat) (l : list string) : list string :=
  Nat.iter rounds (fun x => x ++ x) l.

(** ** Example keyspaces *)

Definition st_a : store := {[ "q" := RList ["a"] ]}.
Definition st_abc : store := {[ "q" := RList ["a"; "b"; "c"] ]}.
Definition st_empty_element : store := {[ "q" := RList [""] ]}.
Definition st_ab : store :=
  {[ "a" := RSet {[ "1"; "2"; "3" ]}; "b" := RSet {[ "2"; "3"; "4" ]} ]}.

(** ** The remaining methods

    The commands and methods below complete the three classes.  LREM is
    called as [lrem(name, count, value)], the signature of redis-py 3
    (and of [StrictRedis] before it). *)

Section Methods.

Variable fallback : pyval -> option string.

(** Drop the first [n] elements equal to [b]. *)
Fixpoint remove_first (n : nat) (b : string) (l : list string) {struct l}
    : list string :=
  match l with
  | [] => []
  | x :: r =>
      match n with
      | O => l
      | S n' =>
          if bool_decide (x = b) then remove_first n' b r
          else x :: remove_first n b r
      end
  end.

(** LREM key count value: [count > 0] removes from the head, [count < 0]
    from the tail, [count = 0] every occurrence; the reply is the
    number of removed elements. *)
Definition lrem_list (count : Z) (b : string) (l : list string) : list string :=
  if count >? 0 then remove_first (Z.to_nat count) b l
  else if count <? 0
       then reverse (remove_first (Z.to_nat (- count)) b (reverse l))
       else filter (fun x => x <> b) l.

Definition lrem (k : string) (count : Z) (v : pyval) : M Z :=
  b <- encode_arg fallback v ;;
  with_list k (fun l =>
    let l' := lrem_list count b l in
    set_list k l' ;; ret (Z.of_nat (length l - length l'))).

(** LSET key index value: an error for a missing key and for an offset
    outside the list. *)
Definition lset (k : string) (i : Z) (v : pyval) : M unit :=
  b <- encode_arg fallback v ;;
  with_list k (fun l =>
    let j := if i <? 0 then Z.of_nat (length l) + i else i in
    if (0 <=? j) && (j <? Z.of_nat (length l))
    then set_list k (<[Z.to_nat j := b]> l)
    else raise ResponseError).

(** LPOP, RPOP: the removed element, or nil. *)
Definition lpop (k : string) : M (option string) :=
  with_list k (fun l =>
    match l with
    | [] => ret None
    | x :: r => set_list k r ;; ret (Some x)
    end).

Definition rpop (k : string) : M (option string) :=
  with_list k (fun l =>
    match last l with
    | None => ret None
    | Some x => set_list k (removelast l) ;; ret (Some x)
    end).

(** SPOP: the server removes a member of its choosing, here the one
    [choice] selects; nil for an empty set. *)
Definition spop (choice : nat) (k : string) : M (option string) :=
  with_set k (fun s =>
    match elements s !! (choice mod size s)%nat with
    | None => ret None
    | Some x => set_set k (s ∖ {[x]}) ;; ret (Some x)
    end).

(** HEXISTS, HKEYS, HVALS *)
Definition hexists (k : string) (field : pyval) : M bool :=
  f <- encode_arg fallback field ;;
  with_hash k (fun h => ret (bool_decide (is_Some (h !! f)))).

Definition hkeys (k : string) : M (list string) :=
  with_hash k (fun h => ret (map fst (map_to_list h))).

Definition hvals (k : string) : M (list string) :=
  with_hash k (fun h => ret (map snd (map_to_list h))).

(** *** RedisList *)

Definition RedisList_remove (key : string) (v : pyval) : M pyval :=
  response <- lrem key 1 v ;;
  if response =? 0 then raise ValueError else ret PNone.

Definition RedisList_setitem (key : string) (i : Z) (v : pyval) : M pyval :=
  try_except (lset key i v ;; ret PNone) ResponseError (raise IndexError).

(** [__delitem__]: the two ends are popped; any other position is
    overwritten with [uid], the value of [uuid.uuid1().int], which is
    then removed by value. *)
Definition RedisList_delitem (uid : Z) (key : string) (index : Z) : M pyval :=
  if index =? 0 then lpop key ;; ret PNone
  else if index =? -1 then rpop key ;; ret PNone
  else
    RedisList_setitem key index (PInt uid) ;;
    RedisList_remove key (PInt uid) ;;
    ret PNone.

(** [x == s] for a value [x] and a [str] [s] (in either order: [str]
    defers to the other operand's [__eq__]).  A [RedisList] compares
    [s] with [list(self)], a [RedisSet] runs its own [__eq__]. *)
Definition eq_str (x : pyval) (s : string) : M bool :=
  match x with
  | PStr t => ret (bool_decide (t = s))
  | PRedisList k => list_of_view k ;; ret false
  | PRedisSet k => RedisSet_eq k (PStr s)
  | _ => ret false
  end.

(** [xs == l] for a local list [xs] and a list of [str]: the lengths
    first, then element by element up to the first difference. *)
Fixpoint list_eq_from (xs : list pyval) (l : list string) : M bool :=
  match xs, l with
  | [], [] => ret true
  | x :: xs', s :: l' =>
      b <- eq_str x s ;;
      if b then list_eq_from xs' l' else ret false
  | _, _ => ret false
  end.

Definition list_eq (xs : list pyval) (l : list string) : M bool :=
  if bool_decide (length xs = length l) then list_eq_from xs l else ret false.

(** [val in l] for a list of [str]: up to the first equal element. *)
Fixpoint list_contains (val : pyval) (l : list string) : M bool :=
  match l with
  | [] => ret false
  | s :: l' =>
      b <- eq_str val s ;;
      if b then ret true else list_contains val l'
  end.

(** The bound on the loop of [count], read off the keyspace; this is
    not a command. *)
Definition loop_bound (key : string) : M nat :=
  fun st => Some (st, Return (S (length (default [] (contents st key))))).

(** [sum(1 for i in self if i == value)]: the generator fetches one
    element at a time and compares it before fetching the next. *)
Fixpoint count_from (fuel : nat) (key : string) (value : pyval) (i : Z)
    : M Z :=
  match fuel with
  | O => fun _ => None
  | S fuel' =>
      item <- try_except
                (v <- RedisList_getitem_int key i ;; ret (Some v))
                IndexError
                (ret None) ;;
      match item with
      | None => ret 0
      | Some v =>
          b <- eq_str value v ;;
          n <- count_from fuel' key value (i + 1) ;;
          ret ((if b then 1 else 0) + n)
      end
  end.

Definition RedisList_count (key : string) (value : pyval) : M Z :=
  fuel <- loop_bound key ;;
  count_from fuel key value 0.

Definition RedisList_reverse (key : string) : M pyval :=
  current <- list_of_view key ;;
  RedisList_clear key ;;
  RedisList_extend fallback key (PList (map PStr (reverse current))) ;;
  ret PNone.

(** [list(self) + other]: only a list can be added to a list. *)
Definition RedisList_add (key : string) (other : pyval) : M pyval :=
  l <- list_of_view key ;;
  match other with
  | PList xs => ret (PList (map PStr l ++ xs))
  | _ => raise TypeError
  end.

Definition RedisList_contains (key : string) (val : pyval) : M bool :=
  l <- list_of_view key ;; list_contains val l.

(** [val == list(self)]: the list is built first, then [val] decides. *)
Definition RedisList_eq (key : string) (val : pyval) : M bool :=
  l <- list_of_view key ;;
  match val with
  | PList xs => list_eq xs l
  | PRedisList k' => l' <- list_of_view k' ;; ret (bool_decide (l = l'))
  | PRedisSet k' => RedisSet_eq k' (PList (map PStr l))
  | _ => ret false
  end.

Definition RedisList_ne (key : string) (val : pyval) : M bool :=
  b <- RedisList_eq key val ;; ret (negb b).

(** [current * integer] *)
Definition RedisList_mul (key : string) (integer : pyval) : M pyval :=
  current <- list_of_view key ;;
  match integer with
  | PInt n => ret (PList (map PStr (mjoin (replicate (Z.to_nat n) current))))
  | _ => raise TypeError
  end.

(** *** RedisSet *)

Definition RedisSet_clear (key : string) : M pyval :=
  delete_key key ;; ret PNone.

Definition RedisSet_pop (choice : nat) (key : string) : M pyval :=
  r <- spop choice key ;;
  ret (match r with Some b => PBytes b | None => PNone end).

(** [other.key] *)
Definition key_of (other : pyval) : M string :=
  match other with
  | PRedisList k | PRedisSet k | PRedisDict k => ret k
  | _ => raise AttributeError
  end.

(** [__le__] and [__ge__] compare the reply of SINTER, a set of bytes,
    with [set(self)] or [set(other)]. *)
Definition RedisSet_le (key : string) (other : pyval) : M bool :=
  k' <- key_of other ;;
  inter <- sinter [key; k'] ;;
  mine <- py_set (PRedisSet key) ;;
  ret (set_eqb (map ABytes (elements inter)) mine).

Definition RedisSet_ge (key : string) (other : pyval) : M bool :=
  k' <- key_of other ;;
  inter <- sinter [key; k'] ;;
  theirs <- py_set other ;;
  ret (set_eqb (map ABytes (elements inter)) theirs).

Definition RedisSet_issubset := RedisSet_le.
Definition RedisSet_issuperset := RedisSet_ge.

(** [self <= other and self != other] *)
Definition RedisSet_lt (key : string) (other : pyval) : M bool :=
  b <- RedisSet_le key other ;;
  if b then RedisSet_ne key other else ret false.

Definition RedisSet_gt (key : string) (other : pyval) : M bool :=
  b <- RedisSet_ge key other ;;
  if b then RedisSet_ne key other else ret false.

(** [update]: the comprehension tests each operand against [cls], a
    name the method does not bind. *)
Definition RedisSet_update (key : string) (others : list pyval) : M pyval :=
  match others with
  | [] => ret tt
  | _ => eval_name ["self"; "others"; "o"] "cls" tt
  end ;;
  sunionstore key (key :: other_keys others) ;;
  ret PNone.

(** *** RedisDict *)

Definition RedisDict_methods : list string :=
  ["__getitem__"; "__setitem__"; "__delitem__"; "__len__"; "__iter__";
   "__contains__"; "_fetch_dict"; "__repr__"; "keys"; "values"; "copy";
   "items"; "get"; "pop"; "update"; "clear"; "fromkeys"; "popitem";
   "setdefault"; "__eq__"; "__ne__"; "__init__"].

Definition RedisDict_len (key : string) : M Z := hlen key.

(** [__contains__] calls [self.hexists], not [self.c.hexists]. *)
Definition RedisDict_contains (key : string) (k : pyval) : M bool :=
  getattr_self RedisDict_methods "hexists" tt ;;
  hexists key k.

Definition RedisDict_keys (key : string) : M (list string) := hkeys key.
Definition RedisDict_values (key : string) : M (list string) := hvals key.
Definition RedisDict_items (key : string) : M (gmap string string) :=
  hgetall key.

End Methods.

(** The position an offset addresses, when it is inside the list. *)
Definition position (l : list string) (i : Z) : option nat :=
  let j := if i <? 0 then Z.of_nat (length l) + i else i in
  if (0 <=? j) && (j <? Z.of_nat (length l)) then Some (Z.to_nat j) else None.

(** [x == s] for a value that is not a view. *)
Definition str_matches (x : pyval) (s : string) : bool :=
  match x with
  | PStr t => bool_decide (t = s)
  | _ => false
  end.

Definition is_view (x : pyval) : bool :=
  match x with
  | PRedisList _ | PRedisSet _ | PRedisDict _ => true
  | _ => false
  end.

(** * Properties *)

(** Unfold the monad's operations and reduce the matches they expose. *)
Ltac run := repeat progress (unfold bind, ret, raise; cbv beta iota).

Section Reads.

Context {A : Type}.

Lemma with_list_contents k (f : list string -> M A) st l :
  contents st k = Some l -> with_list k f st = f l st.
Proof.
  unfold contents, with_list. destruct (st !! k) as [[]|]; congruence.
Qed.

Lemma with_list_wrongtype k (f : list string -> M A) st :
  contents st k = None -> with_list k f st = Some (st, Raise ResponseError).
Proof.
  unfold contents, with_list. destruct (st !! k) as [[]|]; congruence.
Qed.

Lemma with_set_members k (f : gset string -> M A) st s :
  members st k = Some s -> with_set k f st = f s st.
Proof.
  unfold members, with_set. destruct (st !! k) as [[]|]; congruence.
Qed.

Lemma with_hash_fields k (f : gmap string string -> M A) st h :
  fields st k = Some h -> with_hash k f st = f h st.
Proof.
  unfold fields, with_hash. destruct (st !! k) as [[]|]; congruence.
Qed.

End Reads.

Lemma mapM_DECODER l st :
  mapM DECODER l st =
  Some (st, if forallb valid_utf8 l then Return l else Raise UnicodeDecodeError).
Proof.
  induction l as [|b l IH]; [reflexivity|].
  simpl. unfold bind at 1. unfold DECODER at 1.
  destruct (valid_utf8 b); simpl; [|reflexivity].
  unfold bind. rewrite IH. destruct (forallb valid_utf8 l); reflexivity.
Qed.

Lemma offset_ok_int64 l i : int64 i = true -> offset_ok l i = true.
Proof. unfold offset_ok. by intros ->. Qed.

(** Offsets that reach no further than one past either end of the list
    are always readable. *)
Lemma offset_ok_near l i :
  - Z.of_nat (length l) - 1 <= i <= Z.of_nat (length l) + 1 ->
  offset_ok l i = true.
Proof.
  intros Hi. unfold offset_ok.
  destruct (int64 (Z.of_nat (length l) + 1)) eqn:Hlen;
    [|by rewrite orb_true_r].
  rewrite orb_false_r. unfold int64 in *.
  apply andb_prop in Hlen as [H1 H2].
  apply andb_true_intro. split; lia.
Qed.

Lemma element_at_nil i : element_at [] i = None.
Proof. unfold element_at. simpl. by repeat case_match. Qed.

Lemma element_at_Some_near l i b :
  element_at l i = Some b ->
  - Z.of_nat (length l) - 1 <= i <= Z.of_nat (length l) + 1.
Proof.
  unfold element_at. cbv zeta.
  destruct (Z.ltb_spec i 0);
    (match goal with |- context [?a <? 0] => destruct (Z.ltb_spec a 0) end;
     [done|]); intros Hb; apply lookup_lt_Some in Hb; lia.
Qed.

Lemma lindex_contents k i st l :
  contents st k = Some l ->
  l = [] \/ offset_ok l i = true ->
  lindex k i st = Some (st, Return (element_at l i)).
Proof.
  intros H Hok. unfold lindex. rewrite (with_list_contents _ _ _ _ H).
  destruct l as [|x l]; [by rewrite element_at_nil|].
  destruct Hok as [? | ->]; done.
Qed.

(** [self[i]] in full, for an offset the server reads: [IndexError]
    for a missing element and for an empty one, [UnicodeDecodeError]
    for one that does not decode. *)
Lemma getitem_int_contents k i st l :
  contents st k = Some l ->
  l = [] \/ offset_ok l i = true ->
  RedisList_getitem_int k i st =
  Some (st, match element_at l i with
            | None => Raise IndexError
            | Some b =>
                if bool_decide (b = EmptyString) then Raise IndexError
                else if valid_utf8 b then Return b
                else Raise UnicodeDecodeError
            end).
Proof.
  intros H Hok. unfold RedisList_getitem_int, bind.
  rewrite (lindex_contents _ _ _ _ H Hok).
  destruct (element_at l i) as [b|]; simpl; [|reflexivity].
  case_bool_decide; [reflexivity|].
  unfold DECODER. destruct (valid_utf8 b); reflexivity.
Qed.

(** An offset the server does not read, on a list that is not empty. *)
Lemma getitem_int_unreadable k i st l :
  contents st k = Some l ->
  l <> [] ->
  offset_ok l i = false ->
  RedisList_getitem_int k i st = Some (st, Raise ResponseError).
Proof.
  intros H Hne Hok. unfold RedisList_getitem_int, bind, lindex.
  rewrite (with_list_contents _ _ _ _ H).
  destruct l; [done|]. by rewrite Hok.
Qed.

Lemma offset_ok_nat l (j : nat) :
  (j <= S (length l))%nat -> offset_ok l (Z.of_nat j) = true.
Proof. intros Hj. apply offset_ok_near. lia. Qed.

Lemma element_at_nat l (j : nat) : element_at l (Z.of_nat j) = l !! j.
Proof.
  unfold element_at. cbv zeta.
  destruct (Z.ltb_spec (Z.of_nat j) 0) as [|_]; [lia|].
  destruct (Z.ltb_spec (Z.of_nat j) 0); [lia|]. by rewrite Nat2Z.id.
Qed.

(** The loop of [Sequence.__iter__] never leaves the keyspace changed
    and never runs out of fuel when it is given more than the number of
    elements still ahead. *)
Lemma iter_from_total fuel k st (j : nat) l :
  contents st k = Some l ->
  (j <= length l)%nat ->
  (length l - j < fuel)%nat ->
  exists r, iter_from fuel k (Z.of_nat j) st = Some (st, r).
Proof.
  intros Hl. revert j. induction fuel as [|fuel IH]; intros j Hj Hf; [lia|].
  simpl. unfold try_except, bind.
  rewrite (getitem_int_contents _ _ _ _ Hl)
    by (right; apply offset_ok_nat; lia).
  rewrite element_at_nat.
  destruct (l !! j) as [b|] eqn:Hb; simpl; [|eauto].
  case_bool_decide; simpl; [eauto|].
  destruct (valid_utf8 b); simpl; [|eauto].
  apply lookup_lt_Some in Hb.
  replace (Z.of_nat j + 1) with (Z.of_nat (S j)) by lia.
  destruct (IH (S j)) as [r ->]; [lia|lia|].
  destruct r as [rest|e]; simpl; [eauto|].
  destruct (exn_isinstance e IndexError); eauto.
Qed.

Lemma iter_from_text fuel k st (j : nat) l :
  contents st k = Some l ->
  forallb text l = true ->
  (j <= length l)%nat ->
  (length l - j < fuel)%nat ->
  iter_from fuel k (Z.of_nat j) st = Some (st, Return (drop j l)).
Proof.
  intros Hl Ht. revert j. induction fuel as [|fuel IH]; intros j Hj Hf; [lia|].
  simpl. unfold try_except, bind.
  rewrite (getitem_int_contents _ _ _ _ Hl)
    by (right; apply offset_ok_nat; lia).
  rewrite element_at_nat.
  destruct (l !! j) as [b|] eqn:Hb; simpl.
  - assert (text b = true) as Htb.
    { rewrite forallb_forall in Ht. apply Ht, list_elem_of_In.
      by eapply list_elem_of_lookup_2. }
    unfold text in Htb. apply andb_prop in Htb as [Hne Hv].
    apply negb_true_iff in Hne. rewrite Hne, Hv. simpl.
    replace (Z.of_nat j + 1) with (Z.of_nat (S j)) by lia.
    apply lookup_lt_Some in Hb as Hlt.
    rewrite IH by lia. simpl.
    by rewrite (drop_S _ _ _ Hb).
  - apply lookup_ge_None in Hb. by rewrite drop_ge.
Qed.

(** [list(self)] always terminates. *)
Lemma list_of_view_total k st :
  exists r, list_of_view k st = Some (st, r).
Proof.
  unfold list_of_view, bind, RedisList_len, llen.
  destruct (contents st k) as [l|] eqn:Hl.
  - rewrite (with_list_contents _ _ _ _ Hl). unfold ret. cbv beta iota.
    rewrite Nat2Z.id.
    apply (iter_from_total _ _ _ 0%nat l Hl); lia.
  - rewrite (with_list_wrongtype _ _ _ Hl). eauto.
Qed.

(** [list(self)] gives the stored elements when each is non-empty and
    decodes. *)
Lemma list_of_view_text k st l :
  contents st k = Some l ->
  forallb text l = true ->
  list_of_view k st = Some (st, Return l).
Proof.
  intros Hl Ht. unfold list_of_view, bind, RedisList_len, llen.
  rewrite (with_list_contents _ _ _ _ Hl). unfold ret. cbv beta iota.
  rewrite Nat2Z.id.
  rewrite (iter_from_text _ _ _ 0%nat l Hl Ht) by lia. by rewrite drop_0.
Qed.

(** ** Sequence: index and slice access *)

(** On an empty sequence every index raises [IndexError]. *)
Lemma getitem_int_empty k i st :
  contents st k = Some [] ->
  RedisList_getitem_int k i st = Some (st, Raise IndexError).
Proof.
  intros H. rewrite (getitem_int_contents _ _ _ _ H) by by left.
  by rewrite element_at_nil.
Qed.

(** C7: [get(index)] is claimed to raise [IndexError] only when no
    element is present at the index.  With the empty string stored at
    index 0, LINDEX returns that element, and [__getitem__] raises
    [IndexError] all the same: the test [not val] does not tell an
    empty reply from a missing one. *)
Theorem getitem_empty_element_raises fallback :
  lindex "q" 0 st_empty_element
    = Some (st_empty_element, Return (Some EmptyString))
  /\ RedisList_getitem fallback "q" (IInt 0) st_empty_element
    = Some (st_empty_element, Raise IndexError).
Proof. split; reflexivity. Qed.

(** The range a slice selects, read by position: both ends are
    included. *)
Lemma range_of_inclusive l s e (j : nat) :
  0 <= s -> s <= e -> e < Z.of_nat (length l) ->
  length (range_of l s e) = Z.to_nat (e - s + 1)
  /\ (Z.of_nat j <= e - s -> range_of l s e !! j = l !! (Z.to_nat s + j)%nat).
Proof.
  intros Hs Hse He. unfold range_of. cbv zeta.
  destruct (Z.ltb_spec s 0); [lia|].
  destruct (Z.ltb_spec e 0); [lia|].
  destruct (Z.ltb_spec s 0); [lia|].
  destruct (Z.gtb_spec s e); [lia|].
  destruct (Z.geb_spec s (Z.of_nat (length l))); [lia|].
  destruct (Z.geb_spec e (Z.of_nat (length l))); [lia|]. simpl.
  split.
  - rewrite length_take, length_drop. lia.
  - intros Hj. rewrite lookup_take_lt by lia. by rewrite lookup_drop.
Qed.

Lemma int_arg_not_NotImplemented fallback o st st' :
  int_arg fallback o st <> Some (st', Raise NotImplementedError).
Proof.
  destruct o; [discriminate|].
  unfold int_arg, bind, encode_arg.
  destruct (encode fallback PNone); discriminate.
Qed.

Lemma int_arg_state fallback o st st' r :
  int_arg fallback o st = Some (st', r) -> st' = st.
Proof.
  destruct o; [by inversion 1|].
  unfold int_arg, bind, encode_arg.
  destruct (encode fallback PNone); by inversion 1.
Qed.

(** C4, counterexample: a slice with step 1 is refused. *)
Lemma sliced_step_one_raises :
  RedisList_sliced strict_fallback "q" (Some 0) (Some 1) (Some 1) st_abc
  = Some (st_abc, Raise NotImplementedError).
Proof. reflexivity. Qed.

Lemma lrange_contents k start stop st l :
  contents st k = Some l ->
  lrange k start stop st
  = Some (st, if offset_ok l start && offset_ok l stop
              then Return (range_of l start stop)
              else Raise ResponseError).
Proof.
  intros Hl. unfold lrange. rewrite (with_list_contents _ _ _ _ Hl).
  by destruct (_ && _).
Qed.

Lemma offset_unreadable l i :
  int64 i = false ->
  int64 (Z.of_nat (length l) + 1) = true ->
  offset_ok l i = false.
Proof. unfold offset_ok. by intros -> ->. Qed.

(** C4, as amended: slice access raises [NotImplementedError] exactly
    when a step is given (step 1 included); without a step, and with a
    start and an end the server reads (signed 64-bit integers), it
    returns the decoded elements of the inclusive range [start, end] of
    the stored list; for a start or an end outside that range the
    server's [ResponseError] is passed on. *)
Theorem sliced_spec fallback key start stop step st l :
  contents st key = Some l ->
  ((exists st', RedisList_sliced fallback key start stop step st
                = Some (st', Raise NotImplementedError))
   <-> step <> None)
  /\ (forall s e,
        step = None -> start = Some s -> stop = Some e ->
        int64 s = true -> int64 e = true ->
        forallb valid_utf8 (range_of l s e) = true ->
        RedisList_sliced fallback key start stop step st
        = Some (st, Return (PList (map PStr (range_of l s e)))))
  /\ (forall s e,
        step = None -> start = Some s -> stop = Some e ->
        int64 s && int64 e = false ->
        int64 (Z.of_nat (length l) + 1) = true ->
        RedisList_sliced fallback key start stop step st
        = Some (st, Raise ResponseError)).
Proof.
  intros Hl. split; [split|split].
  - intros [st' H] ->. unfold RedisList_sliced, bind in H.
    destruct (int_arg fallback start st) as [[st1 [s|e1]]|] eqn:Hs;
      [|exfalso; inversion H; subst; by eapply int_arg_not_NotImplemented|done].
    apply int_arg_state in Hs as ->.
    destruct (int_arg fallback stop st) as [[st2 [e|e2]]|] eqn:He;
      [|exfalso; inversion H; subst; by eapply int_arg_not_NotImplemented|done].
    apply int_arg_state in He as ->.
    rewrite (lrange_contents _ _ _ _ _ Hl) in H.
    destruct (_ && _); [|discriminate].
    rewrite mapM_DECODER in H.
    destruct (forallb valid_utf8 (range_of l s e)); discriminate.
  - intros Hstep. destruct step; [|done]. by exists st.
  - intros s e -> -> -> Hs He Hv. unfold RedisList_sliced, bind. simpl.
    rewrite (lrange_contents _ _ _ _ _ Hl).
    rewrite !offset_ok_int64 by done. simpl.
    rewrite mapM_DECODER, Hv. reflexivity.
  - intros s e -> -> -> Hse Hlen. unfold RedisList_sliced, bind. simpl.
    rewrite (lrange_contents _ _ _ _ _ Hl).
    apply andb_false_iff in Hse as [H|H];
      rewrite (offset_unreadable _ _ H Hlen); by rewrite ?andb_false_r.
Qed.

Lemma sliced_spec_witness :
  RedisList_sliced strict_fallback "q" (Some 0) (Some 1) None st_abc
  = Some (st_abc, Return (PList [PStr "a"; PStr "b"])).
Proof.
  apply (proj1 (proj2 (sliced_spec strict_fallback "q" (Some 0) (Some 1) None
                                   st_abc ["a"; "b"; "c"] eq_refl)) 0 1);
    reflexivity.
Defined.

(** ** Mapping: item access and [get] *)

Lemma RedisDict_getitem_absent fallback key field f st h :
  fields st key = Some h ->
  encode fallback field = Some f ->
  h !! f = None ->
  RedisDict_getitem fallback key field st = Some (st, Raise NameError).
Proof.
  intros Hh Hf Hn. unfold RedisDict_getitem, hget, encode_arg. run.
  rewrite Hf. run. rewrite (with_hash_fields _ _ _ _ Hh). by rewrite Hn.
Qed.

Lemma RedisDict_get_absent fallback key field f default st h :
  fields st key = Some h ->
  encode fallback field = Some f ->
  h !! f = None ->
  RedisDict_get fallback key field default st = Some (st, Raise NameError).
Proof.
  intros Hh Hf Hn. unfold RedisDict_get, try_except.
  by rewrite (RedisDict_getitem_absent _ _ _ _ _ _ Hh Hf Hn).
Qed.

(** C6: on a mapping without field "x", [get("x", default=7)] is
    claimed to return 7 and item access to raise a key error.  Both
    raise [NameError]: the [raise] statement of [__getitem__] mentions
    [key], a name that is not bound there, so no [KeyError] is ever
    built and the handler in [get] has nothing to catch. *)
Theorem get_default_raises_NameError fallback :
  RedisDict_get fallback "m" (PStr "x") (PInt 7) ∅
    = Some (∅, Raise NameError)
  /\ RedisDict_getitem fallback "m" (PStr "x") ∅
    = Some (∅, Raise NameError).
Proof. split; reflexivity. Qed.

(** ** Set: materializing algebra *)

(** The new view is never built: [self.con] is not an attribute. *)
Lemma materialize_raises command uid key others st :
  RedisSet_materialize command uid key others st
  = Some (st, Raise AttributeError).
Proof. reflexivity. Qed.

(** C3: for a = {1,2,3} and b = {2,3,4}, [a.intersection(b)] is claimed
    to return a view of {2,3} under a new key.  The call raises
    [AttributeError] before any command is sent; no key is created and
    the operands are left as they were. *)
Theorem intersection_raises uid :
  RedisSet_intersection uid "a" [PRedisSet "b"] st_ab
  = Some (st_ab, Raise AttributeError).
Proof. reflexivity. Qed.

(** ** Set: discard, remove, equality and the operand check *)

Lemma srem_absent fallback key element b st s :
  members st key = Some s ->
  encode fallback element = Some b ->
  b ∉ s ->
  srem fallback key element st = Some (st, Return 0).
Proof.
  intros Hs Hb Hn. unfold srem, encode_arg. run. rewrite Hb. run.
  rewrite (with_set_members _ _ _ _ Hs). by rewrite bool_decide_eq_false_2.
Qed.

(** C8: for an element that is not in the set, [discard] returns
    without raising and leaves the set as it was, also when called a
    second time, and [remove] raises [KeyError], also when called
    again after the first error. *)
Theorem discard_remove_absent fallback key element b st s :
  members st key = Some s ->
  encode fallback element = Some b ->
  b ∉ s ->
  RedisSet_discard fallback key element st = Some (st, Return PNone)
  /\ (RedisSet_discard fallback key element ;;
      RedisSet_discard fallback key element) st = Some (st, Return PNone)
  /\ RedisSet_remove fallback key element st = Some (st, Raise KeyError)
  /\ try_except (RedisSet_remove fallback key element) KeyError
                (RedisSet_remove fallback key element) st
     = Some (st, Raise KeyError).
Proof.
  intros Hs Hb Hn.
  pose proof (srem_absent _ _ _ _ _ _ Hs Hb Hn) as Hrem.
  assert (RedisSet_discard fallback key element st = Some (st, Return PNone))
    as Hd by (unfold RedisSet_discard; run; by rewrite Hrem).
  assert (RedisSet_remove fallback key element st = Some (st, Raise KeyError))
    as Hr by (unfold RedisSet_remove; run; by rewrite Hrem).
  repeat split; [done| |done|].
  - unfold bind. by rewrite Hd.
  - unfold try_except. by rewrite Hr.
Qed.

Lemma discard_remove_absent_witness :
  RedisSet_discard strict_fallback "a" (PInt 7) st_ab
    = Some (st_ab, Return PNone)
  /\ RedisSet_remove strict_fallback "a" (PInt 7) st_ab
    = Some (st_ab, Raise KeyError).
Proof.
  destruct (discard_remove_absent strict_fallback "a" (PInt 7) "7" st_ab
              {[ "1"; "2"; "3" ]}) as (Hd & _ & Hr & _);
    [reflexivity | reflexivity | by apply (bool_decide_eq_false_1 _ (Decision0 := decide _)) | by split].
Defined.

Lemma mapM_hash_atom_str l st :
  mapM hash_atom (map PStr l) st = Some (st, Return (map AStr l)).
Proof.
  induction l as [|b l IH]; [reflexivity|].
  simpl. run. by rewrite IH.
Qed.

Lemma py_set_RedisSet key st s :
  members st key = Some s ->
  forallb valid_utf8 (elements s) = true ->
  py_set (PRedisSet key) st = Some (st, Return (map AStr (elements s))).
Proof.
  intros Hs Hv. unfold py_set, py_list, RedisSet_iter, smembers. run.
  rewrite (with_set_members _ _ _ _ Hs). rewrite mapM_DECODER, Hv.
  apply mapM_hash_atom_str.
Qed.

(** C9, counterexample: [==] with an integer operand raises. *)
Lemma eq_integer_operand_raises :
  RedisSet_eq "a" (PInt 4) st_ab = Some (st_ab, Raise TypeError).
Proof. reflexivity. Qed.

(** C9, as amended: [s != other] raises [TypeError] when [other] is not
    a [RedisSet]; [s == other] has no such check and returns a boolean
    for every operand that has a length and converts to a set, while an
    operand without a length (an integer, [None]) makes it raise
    [TypeError]; for the empty local list, a non-set operand, [!=]
    raises and [==] returns a boolean. *)
Theorem ne_checks_eq_does_not key st s :
  members st key = Some s ->
  forallb valid_utf8 (elements s) = true ->
  (forall other, is_RedisSet other = false ->
     RedisSet_ne key other st = Some (st, Raise TypeError))
  /\ (forall other n xs,
        py_len other st = Some (st, Return n) ->
        py_set other st = Some (st, Return xs) ->
        exists b, RedisSet_eq key other st = Some (st, Return b))
  /\ (forall other,
        py_len other st = Some (st, Raise TypeError) ->
        RedisSet_eq key other st = Some (st, Raise TypeError))
  /\ (RedisSet_ne key (PList []) st = Some (st, Raise TypeError)
      /\ exists b, RedisSet_eq key (PList []) st = Some (st, Return b)).
Proof.
  intros Hs Hv.
  assert (forall other n xs,
            py_len other st = Some (st, Return n) ->
            py_set other st = Some (st, Return xs) ->
            exists b, RedisSet_eq key other st = Some (st, Return b)) as Heq.
  { intros other n xs Hn Hxs. unfold RedisSet_eq.
    unfold bind at 1. unfold py_len at 1, RedisSet_len, scard.
    rewrite (with_set_members _ _ _ _ Hs). run. rewrite Hn.
    destruct (_ =? n); [|eauto].
    rewrite (py_set_RedisSet _ _ _ Hs Hv), Hxs.
    destruct (set_eqb _ xs); eauto. }
  split; [|split; [done|split; [|split]]].
  - intros other Ho. unfold RedisSet_ne. by rewrite Ho.
  - intros other Hn. unfold RedisSet_eq.
    unfold bind at 1. unfold py_len at 1, RedisSet_len, scard.
    rewrite (with_set_members _ _ _ _ Hs). run. by rewrite Hn.
  - reflexivity.
  - by apply (Heq _ 0 []).
Qed.

Lemma ne_checks_eq_does_not_witness :
  RedisSet_ne "a" (PList []) st_ab = Some (st_ab, Raise TypeError)
  /\ exists b, RedisSet_eq "a" (PList []) st_ab = Some (st_ab, Return b).
Proof.
  apply (ne_checks_eq_does_not "a" st_ab {[ "1"; "2"; "3" ]});
    reflexivity.
Defined.


(** The keys collected are those of the [RedisSet] operands. *)
Lemma elem_of_other_keys k others :
  k ∈ other_keys others <-> PRedisSet k ∈ others.
Proof.
  unfold other_keys. rewrite list_elem_of_omap. split.
  - intros (o & Ho & Hk). destruct o; by simplify_eq/=.
  - intros H. by exists (PRedisSet k).
Qed.




(** ** Sequence: writes *)

Lemma contents_put_list k l st : contents (put_list k l st) k = Some l.
Proof.
  unfold contents, put_list. destruct l.
  - by rewrite lookup_delete_eq.
  - by rewrite lookup_insert_eq.
Qed.

Lemma contents_put_list_ne k k' l st :
  k <> k' -> contents (put_list k l st) k' = contents st k'.
Proof.
  intros Hne. unfold contents, put_list. destruct l.
  - by rewrite lookup_delete_ne.
  - by rewrite lookup_insert_ne.
Qed.

Lemma put_list_put_list k l1 l2 st :
  put_list k l2 (put_list k l1 st) = put_list k l2 st.
Proof.
  unfold put_list. destruct l1, l2;
    rewrite ?delete_delete_eq, ?insert_insert_eq, ?delete_insert_eq,
      ?insert_delete_eq; done.
Qed.

Lemma mapM_encode_str fallback l st :
  mapM (encode_arg fallback) (map PStr l) st = Some (st, Return l).
Proof.
  induction l as [|b l IH]; [reflexivity|].
  cbn [mapM map]. unfold bind at 1. unfold encode_arg at 1. cbn [encode].
  run. by rewrite IH.
Qed.

Lemma ltrim_contents k start stop st l :
  contents st k = Some l ->
  offset_ok l start = true ->
  offset_ok l stop = true ->
  ltrim k start stop st
  = Some (put_list k (range_of l start stop) st, Return tt).
Proof.
  intros Hl H1 H2. unfold ltrim. rewrite (with_list_contents _ _ _ _ Hl).
  by rewrite H1, H2.
Qed.


Lemma rpush_contents fallback k values bs st l :
  contents st k = Some l ->
  mapM (encode_arg fallback) values st = Some (st, Return bs) ->
  bs <> [] ->
  rpush fallback k values st
  = Some (put_list k (l ++ bs) st, Return (Z.of_nat (length (l ++ bs)))).
Proof.
  intros Hl Hbs Hne. unfold rpush. unfold bind at 1. rewrite Hbs.
  destruct bs; [done|]. by rewrite (with_list_contents _ _ _ _ Hl).
Qed.

Lemma rpush_nothing fallback k st :
  rpush fallback k [] st = Some (st, Raise ResponseError).
Proof. reflexivity. Qed.

Ltac zcase :=
  match goal with
  | |- context [?a <? ?b] => destruct (Z.ltb_spec a b)
  | |- context [?a >? ?b] => destruct (Z.gtb_spec a b)
  | |- context [?a >=? ?b] => destruct (Z.geb_spec a b)
  end; cbv iota; cbn [orb]; try lia.
Ltac zcases := repeat zcase.

Ltac take_eq l :=
  rewrite ?drop_0;
  first
    [ by (f_equal; lia)
    | by (match goal with
          | |- [] = take ?n _ => replace n with 0%nat by lia
          end)
    | by (destruct l; [rewrite ?take_nil | simpl in *; lia]) ].

(** LTRIM 0 (i-1) keeps [l[:i]], except for [i = 0], where the stop
    offset -1 addresses the last element and nothing is removed. *)
Lemma range_of_prefix l i :
  i <> 0 -> range_of l 0 (i - 1) = slice_to l i.
Proof.
  intros Hi. unfold range_of, slice_to. cbv zeta. zcases; take_eq l.
Qed.

Lemma range_of_all l : range_of l 0 (-1) = l.
Proof.
  unfold range_of. cbv zeta. zcases;
    try (rewrite drop_0; apply take_ge; lia);
    destruct l; simpl in *; done || lia.
Qed.

Lemma slice_to_from {A} (l : list A) i : slice_to l i ++ slice_from l i = l.
Proof. unfold slice_to, slice_from. apply take_drop. Qed.

(** [insert] under the conditions in which [list(self)] reads the whole
    list back and the server reads the offset [i - 1]: the keyspace
    afterwards, and the outcome (the final RPUSH has nothing to push
    when the tail is empty, and its error is turned into
    [ValueError]). *)
Lemma insert_contents fallback k i v b st l :
  contents st k = Some l ->
  forallb text l = true ->
  encode fallback v = Some b ->
  offset_ok l (i - 1) = true ->
  RedisList_insert fallback k i v st
  = Some (put_list k (range_of l 0 (i - 1) ++ b :: slice_from l i) st,
          match slice_from l i with
          | [] => Raise ValueError
          | _ => Return PNone
          end).
Proof.
  intros Hl Ht Hb Hok. unfold RedisList_insert. unfold bind at 1.
  rewrite (list_of_view_text _ _ _ Hl Ht).
  unfold try_except_all, RedisList_append, RedisList_extend, py_list.
  unfold bind at 1.
  rewrite (ltrim_contents _ _ _ _ _ Hl (offset_ok_int64 l 0 eq_refl) Hok).
  set (st1 := put_list k _ st).
  assert (contents st1 k = Some (range_of l 0 (i - 1))) as H1
    by apply contents_put_list.
  unfold bind at 1. unfold bind at 1.
  rewrite (rpush_contents fallback k [v] [b] st1 _ H1);
    [|by (simpl; unfold encode_arg; rewrite Hb)|done].
  unfold st1. rewrite put_list_put_list.
  set (st2 := put_list k _ st).
  assert (contents st2 k = Some (range_of l 0 (i - 1) ++ [b])) as H2
    by apply contents_put_list.
  unfold ret at 1. cbv beta iota.
  unfold bind at 1. unfold bind at 1. unfold bind at 1.
  unfold ret at 1. cbv beta iota.
  destruct (slice_from l i) as [|p post] eqn:Hpost.
  - simpl map. rewrite rpush_nothing. reflexivity.
  - rewrite (rpush_contents fallback k _ (p :: post) st2 _ H2);
      [|apply mapM_encode_str|done].
    unfold st2. rewrite put_list_put_list. run.
    by rewrite <- app_assoc.
Qed.

(** Away from index 0, and with [i - 1] an offset the server reads,
    the element lands before position [i]. *)
Lemma insert_nonzero fallback k i v b st l :
  contents st k = Some l ->
  forallb text l = true ->
  encode fallback v = Some b ->
  i <> 0 ->
  int64 (i - 1) = true ->
  exists st' r,
    RedisList_insert fallback k i v st = Some (st', r)
    /\ contents st' k = Some (slice_to l i ++ b :: slice_from l i).
Proof.
  intros Hl Ht Hb Hi Hok. eexists _, _. split.
  - apply insert_contents; try done. by apply offset_ok_int64.
  - by rewrite contents_put_list, range_of_prefix.
Qed.


(** At index 0 nothing is trimmed and the whole list is pushed again
    behind the new element. *)
Lemma insert_zero fallback k v b st l :
  contents st k = Some l ->
  forallb text l = true ->
  encode fallback v = Some b ->
  exists st' r,
    RedisList_insert fallback k 0 v st = Some (st', r)
    /\ contents st' k = Some (l ++ b :: l).
Proof.
  intros Hl Ht Hb. eexists _, _. split.
  - by apply insert_contents.
  - rewrite contents_put_list. simpl (0 - 1). rewrite range_of_all.
    unfold slice_from. simpl (0 <? 0). cbv iota zeta.
    rewrite Z.min_l by lia. by rewrite drop_0.
Qed.

(** C1: [insert(i, v)] is claimed to leave [L[0:i] ++ [v] ++ L[i:]],
    for [i = 0] too.  On the one-element list ["a"], [insert(0, "x")]
    leaves ["a"; "x"; "a"] where the claim has ["x"; "a"]: the trim to
    [0, i-1] is a trim to [0, -1], which keeps every element, and the
    tail read before is then pushed a second time. *)
Theorem insert_at_zero_duplicates fallback :
  RedisList_insert fallback "q" 0 (PStr "x") st_a
  = Some ({[ "q" := RList ["a"; "x"; "a"] ]}, Return PNone).
Proof. reflexivity. Qed.

(** ** Sequence: in-place concatenation and repetition *)

Lemma bind_Return {A B} (c : M A) (k : A -> M B) st st' b :
  bind c k st = Some (st', Return b) ->
  exists a st1, c st = Some (st1, Return a) /\ k a st1 = Some (st', Return b).
Proof.
  unfold bind. destruct (c st) as [[st1 [a|e]]|]; [eauto|done|done].
Qed.

(** [list(v)] reads only, and terminates. *)
Lemma py_list_total v st : exists r, py_list v st = Some (st, r).
Proof.
  destruct v as [| | | | |k|k|k]; simpl; try by eexists.
  - unfold bind. destruct (list_of_view_total k st) as [[l|e] ->]; by eexists.
  - unfold RedisSet_iter, smembers, with_set. run.
    destruct (st !! k) as [[]|]; try by eexists.
    all: rewrite mapM_DECODER; destruct (forallb _ _); by eexists.
  - unfold RedisDict_iter, hgetall, with_hash. run.
    destruct (st !! k) as [[]|]; by eexists.
Qed.

Lemma raise_if_not_iterable v st :
  isinstance v TIterable = false ->
  raise_if_of_type v TIterable st = Some (st, Raise TypeError).
Proof. by destruct v. Qed.

Lemma raise_if_iterable v st :
  isinstance v TIterable = true ->
  raise_if_of_type v TIterable st = Some (st, Return tt).
Proof. unfold raise_if_of_type. by intros ->. Qed.

(** The part of C5 the code keeps: an operand that is not iterable is
    refused with [TypeError], before anything is sent. *)
Lemma iadd_not_iterable fallback key v st :
  isinstance v TIterable = false ->
  RedisList_iadd fallback key v st = Some (st, Raise TypeError).
Proof.
  intros H. unfold RedisList_iadd. unfold bind at 1.
  by rewrite raise_if_not_iterable.
Qed.

(** Whatever the client and the operand, [+=] extends the list by one
    value at most: the operand is handed to [append] as a single
    argument. *)
Lemma iadd_at_most_one fallback key v st l :
  contents st key = Some l ->
  exists st' r,
    RedisList_iadd fallback key v st = Some (st', r)
    /\ (contents st' key = Some l
        \/ exists b, contents st' key = Some (l ++ [b])).
Proof.
  intros Hl. unfold RedisList_iadd. unfold bind at 1.
  destruct (isinstance v TIterable) eqn:Hi.
  2:{ rewrite raise_if_not_iterable by done. eauto. }
  rewrite raise_if_iterable by done.
  assert (exists r,
    match v with
    | PList _ => ret v
    | _ => l0 <- py_list v ;; ret (PList l0)
    end st = Some (st, r)) as [r Hr].
  { destruct v; try by eexists.
    all: unfold bind;
      match goal with
      | |- context [py_list ?v ?s] =>
          destruct (py_list_total v s) as [[?|?] ->]
      end; by eexists. }
  unfold bind at 1. rewrite Hr. destruct r as [w|e]; [|eauto].
  unfold RedisList_append, rpush. run. cbn [mapM]. run.
  unfold encode_arg. destruct (encode fallback w) as [b|]; run; [|eauto].
  rewrite (with_list_contents _ _ _ _ Hl). unfold set_list. run.
  eexists _, _. split; [reflexivity|]. right. exists b.
  apply contents_put_list.
Qed.

(** C5: [self += xs] is claimed to append the elements of [xs] one by
    one.  On the empty sequence with [xs = ["a", "b"]] the claim has
    ["a"; "b"] afterwards.  The list is passed to [append] as one
    argument: a client that refuses to send a list raises [DataError]
    and leaves the sequence empty, and no client leaves the two
    elements. *)
Theorem iadd_is_not_concatenation fallback :
  RedisList_iadd strict_fallback "q" (PList [PStr "a"; PStr "b"]) ∅
    = Some (∅, Raise DataError)
  /\ exists st' r,
       RedisList_iadd fallback "q" (PList [PStr "a"; PStr "b"]) ∅
         = Some (st', r)
       /\ contents st' "q" <> Some ["a"; "b"].
Proof.
  split; [reflexivity|].
  destruct (iadd_at_most_one fallback "q" (PList [PStr "a"; PStr "b"]) ∅ [])
    as (st' & r & Hrun & Hc); [reflexivity|].
  exists st', r. split; [done|].
  destruct Hc as [-> | [b ->]]; discriminate.
Qed.

(** Neither method has a [return] statement. *)
Lemma iadd_returns_None fallback key v st st' r :
  RedisList_iadd fallback key v st = Some (st', Return r) -> r = PNone.
Proof.
  unfold RedisList_iadd. intros H.
  apply bind_Return in H as (_ & ? & _ & H).
  apply bind_Return in H as (? & ? & _ & H).
  apply bind_Return in H as (_ & ? & _ & H).
  by inversion H.
Qed.

Lemma imul_returns_None fallback key v st st' r :
  RedisList_imul fallback key v st = Some (st', Return r) -> r = PNone.
Proof.
  unfold RedisList_imul. intros H.
  apply bind_Return in H as (_ & ? & _ & H).
  destruct v; try by inversion H.
  apply bind_Return in H as (_ & ? & _ & H).
  apply bind_Return in H as (_ & ? & _ & H).
  by inversion H.
Qed.

Lemma put_list_same k l st :
  contents st k = Some l -> l <> [] -> put_list k l st = st.
Proof.
  unfold contents, put_list. intros H Hne.
  destruct l; [done|]. apply insert_id.
  destruct (st !! k) as [[]|]; congruence.
Qed.

Lemma extend_self fallback k st l :
  contents st k = Some l -> l <> [] -> forallb text l = true ->
  RedisList_extend fallback k (PRedisList k) st
  = Some (put_list k (l ++ l) st, Return tt).
Proof.
  intros Hl Hne Ht. unfold RedisList_extend, py_list.
  unfold bind at 1. unfold bind at 1.
  rewrite (list_of_view_text _ _ _ Hl Ht). run.
  rewrite (rpush_contents fallback k _ l st l Hl);
    [done|apply mapM_encode_str|done].
Qed.

(** Each round of the loop in [__imul__] doubles the list. *)
Lemma for_range_extend fallback k rounds :
  forall st l,
    contents st k = Some l -> l <> [] -> forallb text l = true ->
    for_range rounds (RedisList_extend fallback k (PRedisList k)) st
    = Some (put_list k (doubled rounds l) st, Return tt).
Proof.
  induction rounds as [|m IH]; intros st l Hl Hne Ht.
  - simpl. by rewrite put_list_same.
  - cbn [for_range]. unfold bind. rewrite (extend_self _ _ _ _ Hl Hne Ht).
    rewrite (IH _ (l ++ l)).
    + rewrite put_list_put_list. unfold doubled.
      change (l ++ l) with ((fun x : list string => x ++ x) l).
      by rewrite Nat.iter_swap.
    + apply contents_put_list.
    + by destruct l.
    + by rewrite forallb_app, Ht.
Qed.

(** C10: [__iadd__] and [__imul__] evaluate to [None], never to the
    view: whenever either returns, the value is [None]; and they do
    return, [+=] when the client sends the operand (one new element),
    [*=] for every integer below 2 and, on a non-empty list of
    non-empty decodable elements, for every larger integer. *)
Theorem inplace_operators_return_None fallback key st l :
  contents st key = Some l ->
  (forall v st' r,
     RedisList_iadd fallback key v st = Some (st', Return r) -> r = PNone)
  /\ (forall v st' r,
        RedisList_imul fallback key v st = Some (st', Return r) -> r = PNone)
  /\ (forall xs b,
        fallback (PList xs) = Some b ->
        RedisList_iadd fallback key (PList xs) st
        = Some (put_list key (l ++ [b]) st, Return PNone))
  /\ (forall n,
        n <= 1 ->
        RedisList_imul fallback key (PInt n) st
        = Some (if n <? 1 then delete key st else st, Return PNone))
  /\ (forall n,
        1 < n -> l <> [] -> forallb text l = true ->
        RedisList_imul fallback key (PInt n) st
        = Some (put_list key (doubled (Z.to_nat (n - 1)) l) st, Return PNone)).
Proof.
  intros Hl. split; [|split; [|split; [|split]]].
  - intros v st' r. apply iadd_returns_None.
  - intros v st' r. apply imul_returns_None.
  - intros xs b Hb. unfold RedisList_iadd, RedisList_append.
    unfold bind at 1. rewrite raise_if_iterable by done. run.
    rewrite (rpush_contents fallback key _ [b] st l Hl); [done| |done].
    cbn [mapM]. unfold encode_arg. cbn [encode]. rewrite Hb. by run.
  - intros n Hn. unfold RedisList_imul, raise_if_of_type.
    cbn [isinstance negb]. unfold RedisList_clear, delete_key. run.
    destruct (Z.ltb_spec n 1), (Z.gtb_spec n 1); try lia; reflexivity.
  - intros n Hn Hne Ht. unfold RedisList_imul, raise_if_of_type.
    cbn [isinstance negb]. run.
    destruct (Z.ltb_spec n 1), (Z.gtb_spec n 1); try lia. run.
    by rewrite (for_range_extend _ _ _ _ _ Hl Hne Ht).
Qed.

Lemma inplace_operators_return_None_witness :
  RedisList_iadd legacy_fallback "q" (PList [PInt 1; PInt 2]) st_abc
    = Some ({[ "q" := RList ["a"; "b"; "c"; "[1, 2]"] ]}, Return PNone)
  /\ RedisList_imul legacy_fallback "q" (PInt 2) st_abc
    = Some ({[ "q" := RList ["a"; "b"; "c"; "a"; "b"; "c"] ]}, Return PNone).
Proof.
  destruct (inplace_operators_return_None legacy_fallback "q" st_abc
              ["a"; "b"; "c"] eq_refl) as (_ & _ & Hadd & _ & Hmul).
  split.
  - apply (Hadd [PInt 1; PInt 2] "[1, 2]"). reflexivity.
  - apply (Hmul 2); [lia | done | reflexivity].
Defined.

(** * Further properties *)

(** ** Sequence: append, extend, remove, item assignment and deletion *)

Lemma llen_contents k st l :
  contents st k = Some l -> llen k st = Some (st, Return (Z.of_nat (length l))).
Proof. intros H. unfold llen. by rewrite (with_list_contents _ _ _ _ H). Qed.

Lemma getitem_text fallback k i st l b :
  contents st k = Some l ->
  element_at l i = Some b ->
  text b = true ->
  RedisList_getitem fallback k (IInt i) st = Some (st, Return (PStr b)).
Proof.
  intros Hl Hb Ht. unfold RedisList_getitem. unfold bind.
  rewrite (getitem_int_contents _ _ _ _ Hl)
    by (right; eapply offset_ok_near, element_at_Some_near, Hb).
  rewrite Hb.
  unfold text in Ht. apply andb_prop in Ht as [Hne Hv].
  apply negb_true_iff in Hne. by rewrite Hne, Hv.
Qed.

(** X1: after [append(v)] the sequence is one longer and both
    [self[len - 1]] and [self[-1]] give back what the client sent for
    [v], as a [str] (for [v = 44] that is ["44"], not the integer). *)
Theorem append_then_get fallback key v b st l :
  contents st key = Some l ->
  encode fallback v = Some b ->
  text b = true ->
  exists st',
    RedisList_append fallback key [v] st = Some (st', Return tt)
    /\ contents st' key = Some (l ++ [b])
    /\ RedisList_len key st' = Some (st', Return (Z.of_nat (length l) + 1))
    /\ RedisList_getitem fallback key (IInt (Z.of_nat (length l))) st'
       = Some (st', Return (PStr b))
    /\ RedisList_getitem fallback key (IInt (-1)) st'
       = Some (st', Return (PStr b)).
Proof.
  intros Hl Hb Ht. exists (put_list key (l ++ [b]) st).
  assert (contents (put_list key (l ++ [b]) st) key = Some (l ++ [b])) as Hc
    by apply contents_put_list.
  split; [|split; [done|split; [|split]]].
  - unfold RedisList_append. unfold bind.
    rewrite (rpush_contents fallback key [v] [b] st l Hl); [done| |done].
    cbn [mapM]. unfold encode_arg. rewrite Hb. by run.
  - unfold RedisList_len. rewrite (llen_contents _ _ _ Hc).
    rewrite length_app. simpl. do 3 f_equal. lia.
  - apply (getitem_text _ _ _ _ _ _ Hc); [|done].
    rewrite element_at_nat. by apply list_lookup_middle.
  - apply (getitem_text _ _ _ _ _ _ Hc); [|done].
    unfold element_at. cbv zeta. change (-1 <? 0) with true. cbv iota.
    rewrite length_app. simpl length. zcases.
    replace (Z.to_nat (Z.of_nat (length l + 1) + -1)) with (length l) by lia.
    by apply list_lookup_middle.
Qed.

Lemma append_then_get_witness :
  exists st',
    RedisList_append strict_fallback "q" [PInt 44] st_abc = Some (st', Return tt)
    /\ RedisList_getitem strict_fallback "q" (IInt (-1)) st'
       = Some (st', Return (PStr "44")).
Proof.
  destruct (append_then_get strict_fallback "q" (PInt 44) "44" st_abc
              ["a"; "b"; "c"] eq_refl eq_refl eq_refl)
    as (st' & Ha & _ & _ & _ & Hg).
  by exists st'.
Defined.

(** X2: [extend] with a non-empty list of strings pushes them in
    order behind the stored elements; with an empty iterable it raises
    the server's [ResponseError] (RPUSH without a value) and changes
    nothing. *)
Theorem extend_appends_in_order fallback key xs st l :
  contents st key = Some l ->
  xs <> [] ->
  RedisList_extend fallback key (PList (map PStr xs)) st
    = Some (put_list key (l ++ xs) st, Return tt)
  /\ contents (put_list key (l ++ xs) st) key = Some (l ++ xs)
  /\ RedisList_extend fallback key (PList []) st
    = Some (st, Raise ResponseError).
Proof.
  intros Hl Hne. split; [|split; [apply contents_put_list|reflexivity]].
  unfold RedisList_extend, py_list. run.
  by rewrite (rpush_contents fallback key _ xs st l Hl);
    [|apply mapM_encode_str|].
Qed.

Lemma extend_appends_in_order_witness :
  RedisList_extend strict_fallback "q" (PList (map PStr ["x"; "y"])) st_abc
  = Some (put_list "q" (["a"; "b"; "c"] ++ ["x"; "y"]) st_abc, Return tt).
Proof.
  apply (extend_appends_in_order strict_fallback "q" ["x"; "y"] st_abc
           ["a"; "b"; "c"] eq_refl). discriminate.
Defined.

Lemma remove_first_zero b l : remove_first 0 b l = l.
Proof. by destruct l. Qed.

Lemma remove_first_notin n b l : b ∉ l -> remove_first n b l = l.
Proof.
  revert n. induction l as [|x l IH]; intros n Hn; [done|].
  destruct n; [done|]. cbn [remove_first].
  apply not_elem_of_cons in Hn as [Hx Hl].
  rewrite bool_decide_eq_false_2 by done. by rewrite IH.
Qed.

Lemma remove_first_split n b l1 l2 :
  b ∉ l1 ->
  remove_first (S n) b (l1 ++ b :: l2) = l1 ++ remove_first n b l2.
Proof.
  induction l1 as [|x l1 IH]; intros Hn; cbn [remove_first app].
  - by rewrite bool_decide_eq_true_2.
  - apply not_elem_of_cons in Hn as [Hx Hl].
    rewrite bool_decide_eq_false_2 by done. by rewrite IH.
Qed.

Lemma lrem_one fallback k v b st l :
  contents st k = Some l ->
  encode fallback v = Some b ->
  lrem fallback k 1 v st
  = Some (put_list k (remove_first 1 b l) st,
          Return (Z.of_nat (length l - length (remove_first 1 b l)))).
Proof.
  intros Hl Hb. unfold lrem, encode_arg. run. rewrite Hb. run.
  by rewrite (with_list_contents _ _ _ _ Hl).
Qed.

(** X3: [remove(v)] deletes the first occurrence of [v] and only that
    one; when [v] does not occur it raises [ValueError] and the
    sequence keeps its elements. *)
Theorem remove_first_occurrence fallback key v b st l :
  contents st key = Some l ->
  encode fallback v = Some b ->
  (b ∉ l ->
     exists st', RedisList_remove fallback key v st = Some (st', Raise ValueError)
                 /\ contents st' key = Some l)
  /\ (forall l1 l2, l = l1 ++ b :: l2 -> b ∉ l1 ->
        exists st', RedisList_remove fallback key v st = Some (st', Return PNone)
                    /\ contents st' key = Some (l1 ++ l2)).
Proof.
  intros Hl Hb. split.
  - intros Hn. eexists. unfold RedisList_remove. unfold bind.
    rewrite (lrem_one _ _ _ _ _ _ Hl Hb), remove_first_notin by done.
    rewrite Nat.sub_diag. split; [reflexivity|apply contents_put_list].
  - intros l1 l2 -> Hn. eexists. unfold RedisList_remove. unfold bind.
    rewrite (lrem_one _ _ _ _ _ _ Hl Hb), remove_first_split by done.
    rewrite remove_first_zero.
    replace (length (l1 ++ b :: l2) - length (l1 ++ l2))%nat with 1%nat
      by (rewrite !length_app; simpl; lia).
    split; [reflexivity|apply contents_put_list].
Qed.

Lemma remove_first_occurrence_witness :
  exists st',
    RedisList_remove strict_fallback "q" (PStr "b") st_abc
      = Some (st', Return PNone)
    /\ contents st' "q" = Some (["a"] ++ ["c"]).
Proof.
  apply (proj2 (remove_first_occurrence strict_fallback "q" (PStr "b") "b"
                  st_abc ["a"; "b"; "c"] eq_refl eq_refl) ["a"] ["c"] eq_refl).
  by apply (bool_decide_eq_false_1 _ (Decision0 := decide _)).
Defined.


Lemma lset_contents fallback k i v b st l :
  contents st k = Some l ->
  encode fallback v = Some b ->
  lset fallback k i v st
  = match position l i with
    | Some p => Some (put_list k (<[p := b]> l) st, Return tt)
    | None => Some (st, Raise ResponseError)
    end.
Proof.
  intros Hl Hb. unfold lset, encode_arg, position. run. rewrite Hb. run.
  rewrite (with_list_contents _ _ _ _ Hl).
  by destruct (_ && _).
Qed.

Lemma setitem_inside fallback key i v b st l p :
  encode fallback v = Some b ->
  contents st key = Some l ->
  position l i = Some p ->
  RedisList_setitem fallback key i v st
  = Some (put_list key (<[p := b]> l) st, Return PNone).
Proof.
  intros Hb Hl Hp. unfold RedisList_setitem, try_except. unfold bind.
  by rewrite (lset_contents _ _ _ _ _ _ _ Hl Hb), Hp.
Qed.

Lemma setitem_outside fallback key i v b st l :
  encode fallback v = Some b ->
  contents st key = Some l ->
  position l i = None ->
  RedisList_setitem fallback key i v st = Some (st, Raise IndexError).
Proof.
  intros Hb Hl Hp. unfold RedisList_setitem, try_except. unfold bind.
  by rewrite (lset_contents _ _ _ _ _ _ _ Hl Hb), Hp.
Qed.

(** X4: [self[i] = v] overwrites the element the offset addresses
    (counting from the tail when negative) and nothing else; outside the
    list it raises [IndexError] and writes nothing, and so it does, with
    the same [IndexError], when the key holds a value that is not a
    list. *)
Theorem setitem_overwrites fallback key i v b st :
  encode fallback v = Some b ->
  (forall l p, contents st key = Some l -> position l i = Some p ->
     RedisList_setitem fallback key i v st
       = Some (put_list key (<[p := b]> l) st, Return PNone)
     /\ contents (put_list key (<[p := b]> l) st) key = Some (<[p := b]> l))
  /\ (forall l, contents st key = Some l -> position l i = None ->
        RedisList_setitem fallback key i v st = Some (st, Raise IndexError))
  /\ (contents st key = None ->
        RedisList_setitem fallback key i v st = Some (st, Raise IndexError)).
Proof.
  intros Hb. split; [|split].
  - intros l p Hl Hp. split; [|apply contents_put_list].
    by apply setitem_inside.
  - intros l Hl Hp. by eapply setitem_outside.
  - intros Hl. unfold RedisList_setitem, try_except, lset, encode_arg. run.
    rewrite Hb. run. by rewrite (with_list_wrongtype _ _ _ Hl).
Qed.

Lemma setitem_overwrites_witness :
  RedisList_setitem strict_fallback "q" (-2) (PStr "x") st_abc
    = Some (put_list "q" (<[1%nat := "x"]> ["a"; "b"; "c"]) st_abc, Return PNone)
  /\ RedisList_setitem strict_fallback "q" 3 (PStr "x") st_abc
    = Some (st_abc, Raise IndexError)
  /\ RedisList_setitem strict_fallback "a" 0 (PStr "x") st_ab
    = Some (st_ab, Raise IndexError).
Proof.
  split; [|split].
  - apply (proj1 (setitem_overwrites strict_fallback "q" (-2) (PStr "x") "x"
                    st_abc eq_refl) ["a"; "b"; "c"] 1%nat eq_refl eq_refl).
  - apply (proj1 (proj2 (setitem_overwrites strict_fallback "q" 3 (PStr "x") "x"
                    st_abc eq_refl)) ["a"; "b"; "c"] eq_refl eq_refl).
  - apply (proj2 (proj2 (setitem_overwrites strict_fallback "a" 0 (PStr "x") "x"
                    st_ab eq_refl)) eq_refl).
Defined.

(** X5: [del self[0]] and [del self[-1]] pop the first and the last
    element and never raise, not even on an empty sequence. *)
Theorem delitem_ends_never_raise fallback uid key st l :
  contents st key = Some l ->
  (exists st', RedisList_delitem fallback uid key 0 st
                 = Some (st', Return PNone)
               /\ contents st' key = Some (drop 1 l))
  /\ (exists st', RedisList_delitem fallback uid key (-1) st
                    = Some (st', Return PNone)
                  /\ contents st' key = Some (removelast l)).
Proof.
  intros Hl. split.
  - unfold RedisList_delitem, lpop. simpl (0 =? 0). cbv iota. unfold bind.
    rewrite (with_list_contents _ _ _ _ Hl).
    destruct l as [|x r]; run; unfold set_list.
    + by exists st.
    + eexists. split; [reflexivity|]. by rewrite contents_put_list.
  - unfold RedisList_delitem, rpop. simpl (-1 =? 0). simpl (-1 =? -1).
    cbv iota. unfold bind. rewrite (with_list_contents _ _ _ _ Hl).
    destruct (last l) as [x|] eqn:Hlast; run; unfold set_list.
    + eexists. split; [reflexivity|]. apply contents_put_list.
    + apply last_None in Hlast as ->. by exists st.
Qed.

Lemma delitem_ends_never_raise_witness :
  exists st', RedisList_delitem strict_fallback 7 "q" 0 ∅
                = Some (st', Return PNone)
              /\ contents st' "q" = Some (drop 1 []).
Proof.
  assert (contents (∅ : store) "q" = Some []) as H by reflexivity.
  apply (proj1 (delitem_ends_never_raise strict_fallback 7 "q" ∅ [] H)).
Defined.

Lemma remove_first_insert p u (l : list string) :
  (p < length l)%nat -> u ∉ l ->
  remove_first 1 u (<[p := u]> l) = delete p l.
Proof.
  intros Hp Hu. rewrite insert_take_drop by done.
  rewrite remove_first_split, remove_first_zero.
  - by rewrite delete_take_drop.
  - intros Hin. apply Hu. by apply (subseteq_take p l).
Qed.

Lemma position_lt l i p : position l i = Some p -> (p < length l)%nat.
Proof.
  unfold position. cbv zeta.
  destruct (_ && _) eqn:H; [|done]. intros [= <-].
  apply andb_prop in H as [H1 H2]. lia.
Qed.

(** X6: [del self[i]] at any other offset inside the list removes
    exactly the element at that position, provided the sentinel (the
    decimal text of the generated uuid) is not already an element;
    outside the list it raises [IndexError] and changes nothing. *)
Theorem delitem_middle fallback uid key i st l :
  contents st key = Some l ->
  i <> 0 -> i <> -1 ->
  (forall p, position l i = Some p -> pretty uid ∉ l ->
     exists st', RedisList_delitem fallback uid key i st
                   = Some (st', Return PNone)
                 /\ contents st' key = Some (delete p l))
  /\ (position l i = None ->
        RedisList_delitem fallback uid key i st
        = Some (st, Raise IndexError)).
Proof.
  intros Hl H0 H1.
  assert (RedisList_delitem fallback uid key i st
          = (RedisList_setitem fallback key i (PInt uid) ;;
             RedisList_remove fallback key (PInt uid) ;;
             ret PNone) st) as ->.
  { unfold RedisList_delitem.
    destruct (Z.eqb_spec i 0); [done|]. by destruct (Z.eqb_spec i (-1)). }
  split.
  - intros p Hp Hu.
    pose proof (contents_put_list key (<[p := pretty uid]> l) st) as Hc.
    unfold bind at 1.
    rewrite (setitem_inside fallback key i (PInt uid) (pretty uid) st l p
               eq_refl Hl Hp).
    unfold bind at 1. unfold RedisList_remove. unfold bind at 1.
    rewrite (lrem_one fallback key (PInt uid) (pretty uid) _ _ Hc eq_refl).
    apply position_lt in Hp.
    rewrite remove_first_insert by done.
    rewrite length_insert, length_delete by by apply lookup_lt_is_Some_2.
    replace (length l - (length l - 1))%nat with 1%nat by lia.
    eexists. split; [reflexivity|].
    by rewrite put_list_put_list, contents_put_list.
  - intros Hp. unfold bind at 1.
    by rewrite (setitem_outside fallback key i (PInt uid) (pretty uid) st l
                  eq_refl Hl Hp).
Qed.

Lemma delitem_middle_witness :
  exists st', RedisList_delitem strict_fallback 99 "q" 1 st_abc
                = Some (st', Return PNone)
              /\ contents st' "q" = Some (delete 1%nat ["a"; "b"; "c"]).
Proof.
  apply (proj1 (delitem_middle strict_fallback 99 "q" 1 st_abc ["a"; "b"; "c"] eq_refl
                  ltac:(lia) ltac:(lia)) 1%nat eq_refl).
  by apply (bool_decide_eq_false_1 _ (Decision0 := decide _)).
Defined.

(** ** Sequence: iteration and what is built on it *)

Lemma iter_from_stop fuel k st l (n : nat) :
  contents st k = Some l ->
  (forall i b, (i < n)%nat -> l !! i = Some b -> text b = true) ->
  (n <= length l)%nat ->
  falsy (l !! n) = true ->
  forall j : nat, (j <= n)%nat -> (n - j < fuel)%nat ->
    iter_from fuel k (Z.of_nat j) st
    = Some (st, Return (take (n - j) (drop j l))).
Proof.
  intros Hl Ht Hn Hstop. induction fuel as [|fuel IH]; intros j Hj Hf; [lia|].
  cbn [iter_from]. unfold try_except, bind.
  rewrite (getitem_int_contents _ _ _ _ Hl)
    by (right; apply offset_ok_nat; lia).
  rewrite element_at_nat.
  destruct (decide (j = n)) as [->|Hne].
  - rewrite Nat.sub_diag. unfold falsy in Hstop.
    destruct (l !! n) as [b|]; [|done].
    by rewrite Hstop.
  - destruct (l !! j) as [b|] eqn:Hb.
    2:{ apply lookup_ge_None in Hb. lia. }
    pose proof (Ht j b ltac:(lia) Hb) as Htb. unfold text in Htb.
    apply andb_prop in Htb as [Hnb Hv]. apply negb_true_iff in Hnb.
    rewrite Hnb, Hv.
    replace (Z.of_nat j + 1) with (Z.of_nat (S j)) by lia.
    rewrite IH by lia. run.
    rewrite (drop_S _ _ _ Hb).
    replace (n - j)%nat with (S (n - S j)) by lia. reflexivity.
Qed.

(** X7: iteration stops at the first empty string: with the elements
    [l1], an empty element and then [l2] stored, [list(self)] is [l1],
    and whatever follows is not seen by [in], [count], [==], [reverse]
    or [insert], which all start from [list(self)]. *)
Theorem iteration_stops_at_empty_element key st l1 l2 :
  contents st key = Some (l1 ++ EmptyString :: l2) ->
  forallb text l1 = true ->
  list_of_view key st = Some (st, Return l1).
Proof.
  intros Hl Ht. unfold list_of_view, bind, RedisList_len.
  rewrite (llen_contents _ _ _ Hl). rewrite Nat2Z.id.
  rewrite (iter_from_stop _ _ _ _ (length l1) Hl) with (j := 0%nat).
  - rewrite drop_0, Nat.sub_0_r. by rewrite take_app_length.
  - intros i b Hi Hb. rewrite lookup_app_l in Hb by done.
    rewrite forallb_forall in Ht. apply Ht, list_elem_of_In.
    by eapply list_elem_of_lookup_2.
  - rewrite length_app. lia.
  - by rewrite (list_lookup_middle l1 l2 EmptyString (length l1) eq_refl).
  - lia.
  - rewrite length_app. simpl. lia.
Qed.

Lemma iteration_stops_at_empty_element_witness :
  list_of_view "q" {[ "q" := RList (["a"] ++ EmptyString :: ["b"]) ]}
  = Some ({[ "q" := RList (["a"] ++ EmptyString :: ["b"]) ]}, Return ["a"]).
Proof.
  apply (iteration_stops_at_empty_element "q" _ ["a"] ["b"]); reflexivity.
Defined.

Lemma eq_str_plain x s st :
  is_view x = false ->
  eq_str x s st = Some (st, Return (str_matches x s)).
Proof. by destruct x. Qed.

Lemma count_from_text fuel k x st l :
  contents st k = Some l ->
  forallb text l = true ->
  is_view x = false ->
  forall j : nat, (j <= length l)%nat -> (length l - j < fuel)%nat ->
    count_from fuel k x (Z.of_nat j) st
    = Some (st, Return (Z.of_nat (length (filter (fun s => str_matches x s = true)
                                                 (drop j l))))).
Proof.
  intros Hl Ht Hx. induction fuel as [|fuel IH]; intros j Hj Hf; [lia|].
  cbn [count_from]. unfold bind at 1. unfold try_except, bind at 1.
  rewrite (getitem_int_contents _ _ _ _ Hl)
    by (right; apply offset_ok_nat; lia).
  rewrite element_at_nat.
  destruct (l !! j) as [b|] eqn:Hb.
  - assert (text b = true) as Htb.
    { rewrite forallb_forall in Ht. apply Ht, list_elem_of_In.
      by eapply list_elem_of_lookup_2. }
    unfold text in Htb. apply andb_prop in Htb as [Hnb Hv].
    apply negb_true_iff in Hnb. rewrite Hnb, Hv. run.
    rewrite (eq_str_plain _ _ _ Hx).
    replace (Z.of_nat j + 1) with (Z.of_nat (S j)) by lia.
    apply lookup_lt_Some in Hb as Hlt. rewrite IH by lia.
    rewrite (drop_S _ _ _ Hb), filter_cons.
    destruct (str_matches x b).
    + rewrite decide_True by done. cbn [length]. do 3 f_equal. lia.
    + rewrite decide_False by done. reflexivity.
  - apply lookup_ge_None in Hb. by rewrite drop_ge.
Qed.

(** X8: on a list of non-empty decodable elements [count(value)] is
    the number of elements equal to the string [value]; a value that is
    not a string (an integer, bytes, [None], a local list) counts 0,
    also when its text is stored. *)
Theorem count_occurrences key st l :
  contents st key = Some l ->
  forallb text l = true ->
  (forall s, RedisList_count key (PStr s) st
             = Some (st, Return (Z.of_nat (length (filter (fun x => x = s) l)))))
  /\ (forall x, is_view x = false -> (forall s, x <> PStr s) ->
        RedisList_count key x st = Some (st, Return 0)).
Proof.
  intros Hl Ht.
  assert (forall x, is_view x = false ->
    RedisList_count key x st
    = Some (st, Return (Z.of_nat (length (filter
                (fun s => str_matches x s = true) l))))) as Hcount.
  { intros x Hx. unfold RedisList_count, loop_bound, bind. rewrite Hl.
    simpl default.
    rewrite (count_from_text _ _ _ _ _ Hl Ht Hx 0%nat) by lia.
    by rewrite drop_0. }
  split.
  - intros s. rewrite Hcount by done. do 5 f_equal.
    apply list_filter_iff. intros x. simpl.
    rewrite bool_decide_eq_true. naive_solver.
  - intros x Hx Hns. rewrite Hcount by done. do 3 f_equal.
    replace (filter _ l) with (@nil string); [done|].
    symmetry. clear -Hns. induction l as [|s l IH]; [done|].
    rewrite filter_cons_False; [done|].
    destruct x; simpl; try done. rewrite bool_decide_eq_true.
    intros ->. by apply (Hns s).
Qed.

Lemma count_occurrences_witness :
  RedisList_count "q" (PStr "b") st_abc
  = Some (st_abc, Return (Z.of_nat (length (filter (fun x => x = "b")
                                                   ["a"; "b"; "c"])))).
Proof.
  apply (proj1 (count_occurrences "q" st_abc ["a"; "b"; "c"] eq_refl eq_refl)).
Defined.

Lemma list_contains_plain x l st :
  is_view x = false ->
  list_contains x l st = Some (st, Return (existsb (str_matches x) l)).
Proof.
  intros Hx. induction l as [|s l IH]; [reflexivity|].
  cbn [list_contains existsb]. unfold bind.
  rewrite (eq_str_plain _ _ _ Hx). by destruct (str_matches x s).
Qed.

(** X9: on a list of non-empty decodable elements, [value in self]
    holds for a string exactly when it is an element, and for no value
    that is not a string (the integer 44 is not "in" a list that holds
    "44"); the test changes nothing. *)
Theorem contains_string key st l :
  contents st key = Some l ->
  forallb text l = true ->
  (forall s, RedisList_contains key (PStr s) st
             = Some (st, Return (bool_decide (s ∈ l))))
  /\ (forall x, is_view x = false -> (forall s, x <> PStr s) ->
        RedisList_contains key x st = Some (st, Return false)).
Proof.
  intros Hl Ht. split.
  - intros s. unfold RedisList_contains, bind.
    rewrite (list_of_view_text _ _ _ Hl Ht), list_contains_plain by done.
    do 3 f_equal. apply eq_true_iff_eq.
    rewrite existsb_exists, bool_decide_eq_true. split.
    + intros (x & Hin & Hx). simpl in Hx. apply bool_decide_eq_true in Hx.
      subst. by apply list_elem_of_In.
    + intros Hin. exists s. split; [by apply list_elem_of_In|].
      simpl. by apply bool_decide_eq_true.
  - intros x Hx Hns. unfold RedisList_contains, bind.
    rewrite (list_of_view_text _ _ _ Hl Ht), list_contains_plain by done.
    do 3 f_equal. apply not_true_is_false. rewrite existsb_exists.
    intros (s & _ & Hs). destruct x; simpl in Hs; try done.
    apply bool_decide_eq_true in Hs. subst. by apply (Hns s).
Qed.

Lemma contains_string_witness :
  RedisList_contains "q" (PStr "b") st_abc
  = Some (st_abc, Return (bool_decide ("b" ∈ ["a"; "b"; "c"]))).
Proof.
  apply (proj1 (contains_string "q" st_abc ["a"; "b"; "c"] eq_refl eq_refl)).
Defined.

Lemma forallb_text_reverse l : forallb text l = true -> forallb text (reverse l) = true.
Proof.
  rewrite !forallb_forall. intros H x Hx. apply H.
  rewrite <- list_elem_of_In in *. by rewrite <- elem_of_reverse.
Qed.

Lemma reverse_nonempty (l : list string) : l <> [] -> reverse l <> [].
Proof.
  intros Hne Hr. apply Hne. apply (f_equal reverse) in Hr.
  by rewrite reverse_involutive in Hr.
Qed.

Lemma reverse_once fallback key st l :
  contents st key = Some l ->
  forallb text l = true ->
  l <> [] ->
  RedisList_reverse fallback key st
  = Some (put_list key (reverse l) (delete key st), Return PNone).
Proof.
  intros Hl Ht Hne. unfold RedisList_reverse. unfold bind at 1.
  rewrite (list_of_view_text _ _ _ Hl Ht).
  unfold RedisList_clear, delete_key, RedisList_extend, py_list. run.
  assert (contents (delete key st) key = Some []) as Hd
    by (unfold contents; by rewrite lookup_delete_eq).
  rewrite (rpush_contents fallback key _ (reverse l) _ [] Hd);
    [done|apply mapM_encode_str|by apply reverse_nonempty].
Qed.

(** X10: [reverse()] on a non-empty list of non-empty decodable
    elements leaves the elements in reverse order, and reversing twice
    gives the original order back; on an empty sequence it raises the
    server's [ResponseError], because the final RPUSH has nothing to
    push. *)
Theorem reverse_reverses fallback key st l :
  contents st key = Some l ->
  forallb text l = true ->
  (l <> [] ->
     exists st',
       RedisList_reverse fallback key st = Some (st', Return PNone)
       /\ contents st' key = Some (reverse l)
       /\ exists st'',
            RedisList_reverse fallback key st' = Some (st'', Return PNone)
            /\ contents st'' key = Some l)
  /\ (l = [] ->
        exists st', RedisList_reverse fallback key st
                    = Some (st', Raise ResponseError)
                    /\ contents st' key = Some []).
Proof.
  intros Hl Ht. split.
  - intros Hne. eexists. split; [by apply reverse_once|].
    split; [apply contents_put_list|].
    eexists. split.
    + apply reverse_once;
        [apply contents_put_list|by apply forallb_text_reverse
        |by apply reverse_nonempty].
    + by rewrite contents_put_list, reverse_involutive.
  - intros ->. eexists. unfold RedisList_reverse. unfold bind at 1.
    rewrite (list_of_view_text _ _ _ Hl Ht). split; [reflexivity|].
    unfold contents. by rewrite lookup_delete_eq.
Qed.

Lemma reverse_reverses_witness :
  exists st',
    RedisList_reverse strict_fallback "q" st_abc = Some (st', Return PNone)
    /\ contents st' "q" = Some (reverse ["a"; "b"; "c"]).
Proof.
  destruct (proj1 (reverse_reverses strict_fallback "q" st_abc ["a"; "b"; "c"]
                     eq_refl eq_refl) ltac:(discriminate))
    as (st' & H1 & H2 & _).
  by exists st'.
Defined.

(** X11: [self + other] returns the decoded elements followed by the
    elements of a local list [other] and changes nothing; with a
    [RedisList] as [other], which the docstring allows, it raises
    [TypeError]. *)
Theorem add_local_list_only key st l :
  contents st key = Some l ->
  forallb text l = true ->
  (forall xs, RedisList_add key (PList xs) st
              = Some (st, Return (PList (map PStr l ++ xs))))
  /\ (forall k', RedisList_add key (PRedisList k') st
                 = Some (st, Raise TypeError)).
Proof.
  intros Hl Ht.
  split; intros ?; unfold RedisList_add, bind;
    by rewrite (list_of_view_text _ _ _ Hl Ht).
Qed.

Lemma add_local_list_only_witness :
  RedisList_add "q" (PRedisList "q") st_abc = Some (st_abc, Raise TypeError).
Proof.
  apply (proj2 (add_local_list_only "q" st_abc ["a"; "b"; "c"] eq_refl eq_refl)).
Defined.

Lemma list_eq_from_strs xs l st :
  length xs = length l ->
  list_eq_from (map PStr xs) l st = Some (st, Return (bool_decide (xs = l))).
Proof.
  revert l. induction xs as [|x xs IH]; intros [|s l] Hlen; try done.
  cbn [map list_eq_from]. unfold bind. cbn [eq_str]. unfold ret at 1.
  cbv beta iota. case_bool_decide as Hx.
  - subst. rewrite IH by (simpl in Hlen; lia). do 3 f_equal.
    apply bool_decide_ext. naive_solver.
  - unfold ret. rewrite bool_decide_eq_false_2; [done|]. naive_solver.
Qed.

Lemma list_eq_strs xs l st :
  list_eq (map PStr xs) l st = Some (st, Return (bool_decide (xs = l))).
Proof.
  unfold list_eq. rewrite length_map. case_bool_decide as Hlen.
  - by apply list_eq_from_strs.
  - unfold ret. rewrite bool_decide_eq_false_2; [done|]. by intros ->.
Qed.

(** X12: for a list of non-empty decodable elements, [self == xs] with
    a local list of strings is true exactly when [xs] is the list of
    stored elements, [self == other] with another [RedisList] compares
    the two stored lists, and [!=] is the negation; the comparison
    changes nothing. *)
Theorem eq_compares_contents key st l :
  contents st key = Some l ->
  forallb text l = true ->
  (forall xs, RedisList_eq key (PList (map PStr xs)) st
              = Some (st, Return (bool_decide (xs = l))))
  /\ (forall k' l', contents st k' = Some l' -> forallb text l' = true ->
        RedisList_eq key (PRedisList k') st
        = Some (st, Return (bool_decide (l = l'))))
  /\ (forall xs, RedisList_ne key (PList (map PStr xs)) st
                 = Some (st, Return (negb (bool_decide (xs = l))))).
Proof.
  intros Hl Ht.
  assert (forall xs, RedisList_eq key (PList (map PStr xs)) st
                     = Some (st, Return (bool_decide (xs = l)))) as Heq.
  { intros xs. unfold RedisList_eq, bind.
    rewrite (list_of_view_text _ _ _ Hl Ht). apply list_eq_strs. }
  split; [done|split].
  - intros k' l' Hl' Ht'. unfold RedisList_eq, bind.
    by rewrite (list_of_view_text _ _ _ Hl Ht),
      (list_of_view_text _ _ _ Hl' Ht').
  - intros xs. unfold RedisList_ne, bind. by rewrite Heq.
Qed.

Lemma eq_compares_contents_witness :
  RedisList_eq "q" (PList (map PStr ["a"; "b"; "c"])) st_abc
  = Some (st_abc, Return (bool_decide (["a"; "b"; "c"] = ["a"; "b"; "c"]))).
Proof.
  apply (proj1 (eq_compares_contents "q" st_abc ["a"; "b"; "c"] eq_refl eq_refl)).
Defined.

Lemma sliced_contents fallback key s e st l :
  contents st key = Some l ->
  offset_ok l s = true ->
  offset_ok l e = true ->
  forallb valid_utf8 (range_of l s e) = true ->
  RedisList_sliced fallback key (Some s) (Some e) None st
  = Some (st, Return (PList (map PStr (range_of l s e)))).
Proof.
  intros Hl Hs He Hv. unfold RedisList_sliced, int_arg. run.
  rewrite (lrange_contents _ _ _ _ _ Hl), Hs, He. simpl.
  by rewrite mapM_DECODER, Hv.
Qed.

(** X13: slice access and index access agree: for [0 <= s <= e < len]
    on a list of non-empty decodable elements, [self[s:e]] has
    [e - s + 1] elements (the end is included) and its j-th element is
    [self[s + j]]. *)
Theorem slice_agrees_with_index fallback key st l s e :
  contents st key = Some l ->
  forallb text l = true ->
  0 <= s -> s <= e -> e < Z.of_nat (length l) ->
  exists ys,
    RedisList_getitem fallback key (ISlice (Some s) (Some e) None) st
      = Some (st, Return (PList (map PStr ys)))
    /\ Z.of_nat (length ys) = e - s + 1
    /\ forall (j : nat) y, ys !! j = Some y ->
         RedisList_getitem fallback key (IInt (s + Z.of_nat j)) st
         = Some (st, Return (PStr y)).
Proof.
  intros Hl Ht Hs Hse He. exists (range_of l s e).
  assert (forall x, x ∈ l -> text x = true) as Hall.
  { intros x Hx. rewrite forallb_forall in Ht. by apply Ht, list_elem_of_In. }
  destruct (range_of_inclusive l s e 0 Hs Hse He) as [Hlen _].
  assert (forall (j : nat) y, range_of l s e !! j = Some y ->
            l !! (Z.to_nat s + j)%nat = Some y) as Hlook.
  { intros j y Hj. apply lookup_lt_Some in Hj as Hlt.
    destruct (range_of_inclusive l s e j Hs Hse He) as [_ Hr].
    rewrite <- Hr; [done|lia]. }
  split; [|split].
  - cbn [RedisList_getitem].
    apply (sliced_contents _ _ _ _ _ _ Hl);
      [apply offset_ok_near; lia|apply offset_ok_near; lia|].
    apply forallb_forall. intros x Hx. apply list_elem_of_In in Hx.
    apply list_elem_of_lookup in Hx as [j Hj]. apply Hlook in Hj.
    assert (text x = true) as Hx by (eapply Hall, list_elem_of_lookup_2, Hj).
    unfold text in Hx. by apply andb_prop in Hx as [_ ?].
  - lia.
  - intros j y Hj. apply Hlook in Hj.
    apply (getitem_text _ _ _ _ _ _ Hl).
    + replace (s + Z.of_nat j) with (Z.of_nat (Z.to_nat s + j)) by lia.
      by rewrite element_at_nat.
    + eapply Hall, list_elem_of_lookup_2, Hj.
Qed.

Lemma slice_agrees_with_index_witness :
  exists ys,
    RedisList_getitem strict_fallback "q" (ISlice (Some 0) (Some 1) None) st_abc
      = Some (st_abc, Return (PList (map PStr ys)))
    /\ Z.of_nat (length ys) = 1 - 0 + 1.
Proof.
  destruct (slice_agrees_with_index strict_fallback "q" st_abc ["a"; "b"; "c"]
              0 1 eq_refl eq_refl) as (ys & H1 & H2 & _); [lia|lia|simpl; lia|].
  by exists ys.
Defined.

Lemma length_doubled rounds l :
  length (doubled rounds l) = (2 ^ rounds * length l)%nat.
Proof.
  unfold doubled. induction rounds as [|m IH]; [simpl; lia|].
  rewrite Nat.iter_succ, length_app, IH, Nat.pow_succ_r'. lia.
Qed.

Lemma imul_rounds fallback key st l n :
  contents st key = Some l ->
  forallb text l = true ->
  l <> [] ->
  1 < n ->
  RedisList_imul fallback key (PInt n) st
  = Some (put_list key (doubled (Z.to_nat (n - 1)) l) st, Return PNone).
Proof.
  intros Hl Ht Hne Hn. unfold RedisList_imul, raise_if_of_type.
  cbn [isinstance negb]. run.
  destruct (Z.ltb_spec n 1), (Z.gtb_spec n 1); try lia. run.
  by rewrite (for_range_extend _ _ _ _ _ Hl Hne Ht).
Qed.

Lemma doubled_copies rounds l :
  doubled rounds l = mjoin (replicate (2 ^ rounds) l).
Proof.
  unfold doubled. induction rounds as [|m IH].
  - simpl. by rewrite app_nil_r.
  - rewrite Nat.iter_succ, IH, Nat.pow_succ_r'.
    replace (2 * 2 ^ m)%nat with (2 ^ m + 2 ^ m)%nat by lia.
    by rewrite replicate_add, join_app.
Qed.

(** X14: [self *= n] for [n >= 2] on a non-empty list of non-empty
    decodable elements returns [None] and leaves [2^(n-1)] copies of
    the list one after the other, not [n]: each of the [n - 1] rounds
    extends the list by its current contents.  The length afterwards
    is [2^(n-1) * len]. *)
Theorem imul_doubles_each_round fallback key st l n :
  contents st key = Some l ->
  forallb text l = true ->
  l <> [] ->
  1 < n ->
  exists st',
    RedisList_imul fallback key (PInt n) st = Some (st', Return PNone)
    /\ contents st' key
       = Some (mjoin (replicate (2 ^ Z.to_nat (n - 1)) l))
    /\ RedisList_len key st'
       = Some (st', Return (2 ^ (n - 1) * Z.of_nat (length l))).
Proof.
  intros Hl Ht Hne Hn.
  eexists. split; [by apply imul_rounds|].
  split; [by rewrite contents_put_list, doubled_copies|].
  unfold RedisList_len.
  rewrite (llen_contents _ _ _ (contents_put_list _ _ _)).
  rewrite length_doubled. do 3 f_equal.
  rewrite Nat2Z.inj_mul, Nat2Z.inj_pow. f_equal. f_equal. lia.
Qed.

Lemma imul_doubles_each_round_witness :
  exists st',
    RedisList_imul strict_fallback "q" (PInt 3) st_a = Some (st', Return PNone)
    /\ contents st' "q" = Some (mjoin (replicate (2 ^ Z.to_nat (3 - 1)) ["a"]))
    /\ RedisList_len "q" st' = Some (st', Return (2 ^ (3 - 1) * Z.of_nat (length ["a"]))).
Proof.
  apply (imul_doubles_each_round strict_fallback "q" st_a ["a"] 3);
    [reflexivity|reflexivity|discriminate|lia].
Defined.



(** ** Set: membership, removal, comparison *)

Lemma members_put_set k s st : members (put_set k s st) k = Some s.
Proof.
  unfold members, put_set. case_bool_decide as Hs.
  - rewrite lookup_delete_eq. by subst.
  - by rewrite lookup_insert_eq.
Qed.

Lemma sismember_members fallback k v b st s :
  members st k = Some s ->
  encode fallback v = Some b ->
  sismember fallback k v st = Some (st, Return (bool_decide (b ∈ s))).
Proof.
  intros Hs Hb. unfold sismember, encode_arg. run. rewrite Hb. run.
  by rewrite (with_set_members _ _ _ _ Hs).
Qed.

Lemma scard_members k st s :
  members st k = Some s -> scard k st = Some (st, Return (Z.of_nat (size s))).
Proof. intros Hs. unfold scard. by rewrite (with_set_members _ _ _ _ Hs). Qed.

Lemma sadd_members fallback k v b st s :
  members st k = Some s ->
  encode fallback v = Some b ->
  sadd fallback k v st
  = Some (if bool_decide (b ∈ s) then st else put_set k ({[b]} ∪ s) st,
          Return (if bool_decide (b ∈ s) then 0 else 1)).
Proof.
  intros Hs Hb. unfold sadd, encode_arg. run. rewrite Hb. run.
  rewrite (with_set_members _ _ _ _ Hs). by case_bool_decide.
Qed.

(** X16: after [add(e)] the element is a member ([e in self] is true),
    the other members are kept, the size has grown by one exactly when
    [e] was new, and adding [e] again changes nothing. *)
Theorem add_then_contains fallback key e b st s :
  members st key = Some s ->
  encode fallback e = Some b ->
  exists st',
    RedisSet_add fallback key e st = Some (st', Return PNone)
    /\ members st' key = Some ({[b]} ∪ s)
    /\ RedisSet_contains fallback key e st' = Some (st', Return true)
    /\ RedisSet_len key st'
       = Some (st', Return (Z.of_nat (if bool_decide (b ∈ s)
                                      then size s else S (size s))))
    /\ RedisSet_add fallback key e st' = Some (st', Return PNone).
Proof.
  intros Hs Hb.
  set (st' := if bool_decide (b ∈ s) then st else put_set key ({[b]} ∪ s) st).
  exists st'.
  assert (members st' key = Some ({[b]} ∪ s)) as Hm.
  { unfold st'. case_bool_decide as Hin; [|apply members_put_set].
    rewrite Hs. f_equal. set_solver. }
  assert (b ∈ {[b]} ∪ s) as Hin' by set_solver.
  split; [|split; [done|split; [|split]]].
  - unfold RedisSet_add, bind. rewrite (sadd_members _ _ _ _ _ _ Hs Hb).
    reflexivity.
  - unfold RedisSet_contains. rewrite (sismember_members _ _ _ _ _ _ Hm Hb).
    by rewrite bool_decide_eq_true_2.
  - unfold RedisSet_len. rewrite (scard_members _ _ _ Hm). do 4 f_equal.
    case_bool_decide as Hin.
    + f_equal. set_solver.
    + rewrite size_union by set_solver. by rewrite size_singleton.
  - unfold RedisSet_add, bind. rewrite (sadd_members _ _ _ _ _ _ Hm Hb).
    by rewrite bool_decide_eq_true_2.
Qed.

Lemma add_then_contains_witness :
  exists st',
    RedisSet_add strict_fallback "a" (PInt 9) st_ab = Some (st', Return PNone)
    /\ RedisSet_contains strict_fallback "a" (PInt 9) st'
       = Some (st', Return true).
Proof.
  destruct (add_then_contains strict_fallback "a" (PInt 9) "9" st_ab
              {[ "1"; "2"; "3" ]} eq_refl eq_refl)
    as (st' & Ha & _ & Hc & _).
  by exists st'.
Defined.

Lemma srem_present fallback key element b st s :
  members st key = Some s ->
  encode fallback element = Some b ->
  b ∈ s ->
  srem fallback key element st
  = Some (put_set key (s ∖ {[b]}) st, Return 1).
Proof.
  intros Hs Hb Hin. unfold srem, encode_arg. run. rewrite Hb. run.
  rewrite (with_set_members _ _ _ _ Hs). by rewrite bool_decide_eq_true_2.
Qed.

(** X17: for a member [e], [discard(e)] and [remove(e)] both return
    [None] and leave the set without [e] and with every other member;
    afterwards [e in self] is false and the size is one less. *)
Theorem discard_remove_present fallback key e b st s :
  members st key = Some s ->
  encode fallback e = Some b ->
  b ∈ s ->
  let st' := put_set key (s ∖ {[b]}) st in
  RedisSet_discard fallback key e st = Some (st', Return PNone)
  /\ RedisSet_remove fallback key e st = Some (st', Return PNone)
  /\ members st' key = Some (s ∖ {[b]})
  /\ RedisSet_contains fallback key e st' = Some (st', Return false)
  /\ RedisSet_len key st' = Some (st', Return (Z.of_nat (size s) - 1)).
Proof.
  intros Hs Hb Hin st'.
  assert (members st' key = Some (s ∖ {[b]})) as Hm by apply members_put_set.
  pose proof (srem_present _ _ _ _ _ _ Hs Hb Hin) as Hrem.
  split; [|split; [|split; [done|split]]].
  - unfold RedisSet_discard, bind. by rewrite Hrem.
  - unfold RedisSet_remove, bind. by rewrite Hrem.
  - unfold RedisSet_contains. rewrite (sismember_members _ _ _ _ _ _ Hm Hb).
    assert (b ∉ s ∖ {[b]}) as Hout by set_solver.
    by rewrite bool_decide_eq_false_2.
  - unfold RedisSet_len. rewrite (scard_members _ _ _ Hm). do 3 f_equal.
    rewrite size_difference by set_solver. rewrite size_singleton.
    assert (size s <> 0%nat); [|lia].
    intros H0. apply size_empty_inv in H0. set_solver.
Qed.

Lemma discard_remove_present_witness :
  RedisSet_discard strict_fallback "a" (PInt 3) st_ab
  = Some (put_set "a" ({[ "1"; "2"; "3" ]} ∖ {[ "3" ]}) st_ab, Return PNone).
Proof.
  apply (discard_remove_present strict_fallback "a" (PInt 3) "3" st_ab
           {[ "1"; "2"; "3" ]} eq_refl eq_refl).
  set_solver.
Defined.

Lemma set_eqb_spec (a b : list atom) :
  set_eqb a b = true <-> (forall x, x ∈ a <-> x ∈ b).
Proof.
  unfold set_eqb. rewrite andb_true_iff, !forallb_forall. split.
  - intros [Hab Hba] x. split; intros Hx.
    + apply list_elem_of_In, Hab in Hx. by apply bool_decide_eq_true in Hx.
    + apply list_elem_of_In, Hba in Hx. by apply bool_decide_eq_true in Hx.
  - intros H. split; intros x Hx; apply bool_decide_eq_true, H;
      by apply list_elem_of_In.
Qed.

Lemma elem_of_map_AStr x (s : gset string) :
  AStr x ∈ map AStr (elements s) <-> x ∈ s.
Proof.
  rewrite <- elem_of_elements. split.
  - intros H. apply list_elem_of_fmap in H as (y & [= ->] & Hy). done.
  - intros H. apply list_elem_of_fmap. by exists x.
Qed.

Lemma set_eqb_elements (s s' : gset string) :
  set_eqb (map AStr (elements s)) (map AStr (elements s'))
  = bool_decide (s = s').
Proof.
  apply eq_true_iff_eq. rewrite set_eqb_spec, bool_decide_eq_true. split.
  - intros H. apply set_eq. intros x. by rewrite <- !elem_of_map_AStr.
  - intros -> x. done.
Qed.

(** X18: [==] between two set views whose members decode is equality
    of the two member sets; the comparison changes nothing. *)
Theorem eq_views_compares_members key key' st s s' :
  members st key = Some s ->
  members st key' = Some s' ->
  forallb valid_utf8 (elements s) = true ->
  forallb valid_utf8 (elements s') = true ->
  RedisSet_eq key (PRedisSet key') st
    = Some (st, Return (bool_decide (s = s')))
  /\ RedisSet_ne key (PRedisSet key') st
    = Some (st, Return (negb (bool_decide (s = s')))).
Proof.
  intros Hs Hs' Hv Hv'.
  assert (RedisSet_eq key (PRedisSet key') st
          = Some (st, Return (bool_decide (s = s')))) as Heq.
  { unfold RedisSet_eq. unfold bind at 1. unfold py_len at 1, RedisSet_len.
    rewrite (scard_members _ _ _ Hs).
    unfold bind at 1. unfold py_len, RedisSet_len.
    rewrite (scard_members _ _ _ Hs').
    destruct (Z.eqb_spec (Z.of_nat (size s)) (Z.of_nat (size s'))) as [Hsz|Hsz].
    - unfold bind.
      rewrite (py_set_RedisSet _ _ _ Hs Hv), (py_set_RedisSet _ _ _ Hs' Hv').
      rewrite set_eqb_elements. by destruct (bool_decide (s = s')).
    - unfold ret. rewrite bool_decide_eq_false_2; [done|]. by intros ->. }
  split; [done|].
  unfold RedisSet_ne. cbn [is_RedisSet negb]. unfold bind. by rewrite Heq.
Qed.

Lemma eq_views_compares_members_witness :
  RedisSet_eq "a" (PRedisSet "b") st_ab
  = Some (st_ab, Return (bool_decide
            (({[ "1"; "2"; "3" ]} : gset string) = {[ "2"; "3"; "4" ]}))).
Proof.
  apply (eq_views_compares_members "a" "b" st_ab {[ "1"; "2"; "3" ]}
           {[ "2"; "3"; "4" ]}); reflexivity.
Defined.

Lemma sinter_two key key' st s s' :
  members st key = Some s ->
  members st key' = Some s' ->
  sinter [key; key'] st = Some (st, Return (s ∩ s')).
Proof.
  intros Hs Hs'. unfold sinter, read_sets. cbn [mapM]. unfold smembers. run.
  rewrite (with_set_members _ _ _ _ Hs). run.
  by rewrite (with_set_members _ _ _ _ Hs').
Qed.

(** X19: [self <= other] and [issubset] compare the reply of SINTER,
    which holds bytes, with [set(self)], which holds strings, so for a
    non-empty set whose members decode the answer is [False] whatever
    the other set is, the set itself included; only an empty set is
    reported to be a subset. *)
Theorem issubset_false_unless_empty key key' st s s' :
  members st key = Some s ->
  members st key' = Some s' ->
  forallb valid_utf8 (elements s) = true ->
  RedisSet_issubset key (PRedisSet key') st
  = Some (st, Return (bool_decide (s = ∅))).
Proof.
  intros Hs Hs' Hv. unfold RedisSet_issubset, RedisSet_le, key_of. run.
  rewrite (sinter_two _ _ _ _ _ Hs Hs').
  rewrite (py_set_RedisSet _ _ _ Hs Hv). do 3 f_equal.
  apply eq_true_iff_eq. rewrite set_eqb_spec, bool_decide_eq_true. split.
  - intros H. apply set_eq. intros x. split; [|set_solver].
    intros Hx. apply elem_of_map_AStr, H in Hx.
    apply list_elem_of_fmap in Hx as (y & Hy & _). discriminate.
  - intros ->. intros x. rewrite (left_id_L ∅ (∩)) || rewrite intersection_empty_l_L.
    by rewrite elements_empty.
Qed.

Lemma issubset_false_unless_empty_witness :
  RedisSet_issubset "a" (PRedisSet "a") st_ab
  = Some (st_ab, Return (bool_decide (({[ "1"; "2"; "3" ]} : gset string) = ∅))).
Proof.
  apply (issubset_false_unless_empty "a" "a" st_ab {[ "1"; "2"; "3" ]}
           {[ "1"; "2"; "3" ]}); reflexivity.
Defined.

(** X20: [isdisjoint] with another set view answers [True] exactly
    when the two sets share no member, and changes nothing. *)
Theorem isdisjoint_iff_no_common_member key key' st s s' :
  members st key = Some s ->
  members st key' = Some s' ->
  exists b,
    RedisSet_isdisjoint key (PRedisSet key') st = Some (st, Return b)
    /\ (b = true <-> s ## s').
Proof.
  intros Hs Hs'. eexists. split.
  - unfold RedisSet_isdisjoint, bind.
    by rewrite (sinter_two _ _ _ _ _ Hs Hs').
  - rewrite bool_decide_eq_true. by rewrite disjoint_intersection_L.
Qed.

Lemma isdisjoint_iff_no_common_member_witness :
  exists b,
    RedisSet_isdisjoint "a" (PRedisSet "b") st_ab = Some (st_ab, Return b)
    /\ (b = true <-> ({[ "1"; "2"; "3" ]} : gset string) ## {[ "2"; "3"; "4" ]}).
Proof.
  apply (isdisjoint_iff_no_common_member "a" "b" st_ab); reflexivity.
Defined.

(** X21: [pop()] on a non-empty set returns one of its members, as
    bytes, and removes exactly that member; on an empty set it returns
    [None] instead of raising. *)
Theorem pop_removes_a_member choice key st s :
  members st key = Some s ->
  (s <> ∅ ->
     exists x, x ∈ s
       /\ RedisSet_pop choice key st
          = Some (put_set key (s ∖ {[x]}) st, Return (PBytes x))
       /\ members (put_set key (s ∖ {[x]}) st) key = Some (s ∖ {[x]}))
  /\ (s = ∅ -> RedisSet_pop choice key st = Some (st, Return PNone)).
Proof.
  intros Hs. split.
  - intros Hne.
    assert (size s <> 0%nat) as Hsz
      by (intros H0; by apply size_empty_inv, leibniz_equiv in H0).
    destruct (elements s !! (choice mod size s)%nat) as [x|] eqn:Hx.
    2:{ apply lookup_ge_None in Hx.
        pose proof (Nat.mod_upper_bound choice (size s) Hsz).
        unfold size, set_size in *. simpl in *. lia. }
    exists x. split; [|split; [|apply members_put_set]].
    + apply elem_of_elements. by eapply list_elem_of_lookup_2.
    + unfold RedisSet_pop, spop, bind.
      rewrite (with_set_members _ _ _ _ Hs). by rewrite Hx.
  - intros ->. unfold RedisSet_pop, spop, bind.
    rewrite (with_set_members _ _ _ _ Hs). by rewrite elements_empty.
Qed.

Lemma pop_removes_a_member_witness :
  exists x, x ∈ ({[ "1"; "2"; "3" ]} : gset string)
    /\ RedisSet_pop 5 "a" st_ab
       = Some (put_set "a" ({[ "1"; "2"; "3" ]} ∖ {[x]}) st_ab, Return (PBytes x)).
Proof.
  destruct (proj1 (pop_removes_a_member 5 "a" st_ab {[ "1"; "2"; "3" ]} eq_refl))
    as (x & Hx & Hp & _).
  - by apply (bool_decide_eq_false_1 _ (Decision0 := decide _)).
  - by exists x.
Defined.

(** X22: [update] with at least one operand raises [NameError] and
    changes nothing (the comprehension mentions [cls], which the method
    never binds); [update()] without operands stores the set onto
    itself and keeps its members. *)
Theorem update_needs_no_operand key st s :
  members st key = Some s ->
  (forall o others,
     RedisSet_update key (o :: others) st = Some (st, Raise NameError))
  /\ exists st',
       RedisSet_update key [] st = Some (st', Return PNone)
       /\ members st' key = Some s.
Proof.
  intros Hs. split; [reflexivity|].
  eexists. unfold RedisSet_update, sunionstore, store_op, read_sets.
  cbn [other_keys omap mapM app]. unfold smembers. run.
  rewrite (with_set_members _ _ _ _ Hs). run. unfold set_set.
  split; [reflexivity|]. apply members_put_set.
Qed.

Lemma update_needs_no_operand_witness :
  RedisSet_update "a" [PRedisSet "b"] st_ab = Some (st_ab, Raise NameError).
Proof.
  apply (proj1 (update_needs_no_operand "a" st_ab {[ "1"; "2"; "3" ]} eq_refl)).
Defined.

(** ** Mapping: assignment, lookup, deletion, iteration *)

Lemma fields_put_hash k h st : fields (put_hash k h st) k = Some h.
Proof.
  unfold fields, put_hash. case_bool_decide as Hh.
  - rewrite lookup_delete_eq. by subst.
  - by rewrite lookup_insert_eq.
Qed.

Lemma hget_fields fallback k field f st h :
  fields st k = Some h ->
  encode fallback field = Some f ->
  hget fallback k field st = Some (st, Return (h !! f)).
Proof.
  intros Hh Hf. unfold hget, encode_arg. run. rewrite Hf. run.
  by rewrite (with_hash_fields _ _ _ _ Hh).
Qed.

Lemma hlen_fields k st h :
  fields st k = Some h -> hlen k st = Some (st, Return (Z.of_nat (size h))).
Proof. intros Hh. unfold hlen. by rewrite (with_hash_fields _ _ _ _ Hh). Qed.

(** X23: after [self[field] = val], [self[field]] and
    [self.get(field, default)] return what the client sent for [val],
    as bytes, whatever the default; the other fields keep their values
    and the length grows by one exactly when the field is new. *)
Theorem setitem_then_getitem fallback key field val f b st h :
  fields st key = Some h ->
  encode fallback field = Some f ->
  encode fallback val = Some b ->
  let st' := put_hash key (<[f := b]> h) st in
  RedisDict_setitem fallback key field val st = Some (st', Return PNone)
  /\ fields st' key = Some (<[f := b]> h)
  /\ RedisDict_getitem fallback key field st' = Some (st', Return (PBytes b))
  /\ (forall default,
        RedisDict_get fallback key field default st'
        = Some (st', Return (PBytes b)))
  /\ RedisDict_len key st'
     = Some (st', Return (Z.of_nat (match h !! f with
                                    | Some _ => size h
                                    | None => S (size h)
                                    end))).
Proof.
  intros Hh Hf Hb st'.
  assert (fields st' key = Some (<[f := b]> h)) as Hh' by apply fields_put_hash.
  assert (RedisDict_getitem fallback key field st'
          = Some (st', Return (PBytes b))) as Hget.
  { unfold RedisDict_getitem, bind.
    rewrite (hget_fields _ _ _ _ _ _ Hh' Hf). by rewrite lookup_insert_eq. }
  split; [|split; [done|split; [done|split]]].
  - unfold RedisDict_setitem, hset, encode_arg. run. rewrite Hf. run.
    rewrite Hb. run. by rewrite (with_hash_fields _ _ _ _ Hh).
  - intros default. unfold RedisDict_get, try_except. by rewrite Hget.
  - unfold RedisDict_len. rewrite (hlen_fields _ _ _ Hh'). do 4 f_equal.
    destruct (h !! f) as [v|] eqn:Hv.
    + rewrite <- (insert_delete_id h f v Hv) at 2.
      rewrite <- insert_delete_eq.
      rewrite !map_size_insert_None by apply lookup_delete_eq. done.
    + by rewrite map_size_insert_None.
Qed.

Lemma setitem_then_getitem_witness :
  RedisDict_getitem strict_fallback "m" (PStr "x")
    (put_hash "m" (<["x" := "7"]> ∅) ∅)
  = Some (put_hash "m" (<["x" := "7"]> ∅) ∅, Return (PBytes "7")).
Proof.
  assert (fields (∅ : store) "m" = Some ∅) as H by reflexivity.
  apply (setitem_then_getitem strict_fallback "m" (PStr "x") (PInt 7) "x" "7"
           ∅ ∅ H eq_refl eq_refl).
Defined.

(** X24: [del self[k]] removes a present field and keeps every other
    one; for an absent field it raises [KeyError] and changes
    nothing. *)
Theorem delitem_field fallback key k f st h :
  fields st key = Some h ->
  encode fallback k = Some f ->
  (forall v, h !! f = Some v ->
     RedisDict_delitem fallback key k st
       = Some (put_hash key (delete f h) st, Return PNone)
     /\ fields (put_hash key (delete f h) st) key = Some (delete f h)
     /\ RedisDict_len key (put_hash key (delete f h) st)
        = Some (put_hash key (delete f h) st,
                Return (Z.of_nat (size h) - 1)))
  /\ (h !! f = None ->
        RedisDict_delitem fallback key k st = Some (st, Raise KeyError)).
Proof.
  intros Hh Hf. split.
  - intros v Hv.
    pose proof (fields_put_hash key (delete f h) st) as Hh'.
    split; [|split; [done|]].
    + unfold RedisDict_delitem, hdel, encode_arg. run. rewrite Hf. run.
      rewrite (with_hash_fields _ _ _ _ Hh). by rewrite Hv.
    + unfold RedisDict_len. rewrite (hlen_fields _ _ _ Hh'). do 3 f_equal.
      rewrite map_size_delete, Hv.
      assert (size h <> 0%nat); [|lia].
      intros H0. apply map_size_empty_inv in H0. subst.
      by rewrite lookup_empty in Hv.
  - intros Hn. unfold RedisDict_delitem, hdel, encode_arg. run. rewrite Hf.
    run. rewrite (with_hash_fields _ _ _ _ Hh). by rewrite Hn.
Qed.

Lemma delitem_field_witness :
  RedisDict_delitem strict_fallback "m" (PStr "x") ∅
  = Some (∅, Raise KeyError).
Proof.
  assert (fields (∅ : store) "m" = Some ∅) as H by reflexivity.
  apply (proj2 (delitem_field strict_fallback "m" (PStr "x") "x" ∅ ∅ H eq_refl)).
  reflexivity.
Defined.

(** X25: iterating a mapping, and [keys()], yield every field name
    exactly once, as bytes, and as many names as [len] reports. *)
Theorem iter_yields_each_field_once key st h :
  fields st key = Some h ->
  exists names,
    RedisDict_iter key st = Some (st, Return names)
    /\ RedisDict_keys key st = Some (st, Return names)
    /\ NoDup names
    /\ (forall f, f ∈ names <-> is_Some (h !! f))
    /\ RedisDict_len key st = Some (st, Return (Z.of_nat (length names))).
Proof.
  intros Hh. exists (map fst (map_to_list h)).
  split; [|split; [|split; [|split]]].
  - unfold RedisDict_iter, hgetall, bind.
    by rewrite (with_hash_fields _ _ _ _ Hh).
  - unfold RedisDict_keys, hkeys. by rewrite (with_hash_fields _ _ _ _ Hh).
  - apply NoDup_fst_map_to_list.
  - intros f. rewrite list_elem_of_fmap. split.
    + intros ([f' v] & -> & Hin). apply elem_of_map_to_list in Hin. by exists v.
    + intros [v Hv]. exists (f, v). split; [done|].
      by apply elem_of_map_to_list.
  - unfold RedisDict_len. rewrite (hlen_fields _ _ _ Hh).
    by rewrite length_map, length_map_to_list.
Qed.

Lemma iter_yields_each_field_once_witness :
  exists names,
    RedisDict_iter "m" (put_hash "m" (<["x" := "7"]> ∅) ∅)
    = Some (put_hash "m" (<["x" := "7"]> ∅) ∅, Return names)
    /\ NoDup names.
Proof.
  destruct (iter_yields_each_field_once "m" (put_hash "m" (<["x" := "7"]> ∅) ∅)
              (<["x" := "7"]> ∅)) as (names & H1 & _ & H2 & _).
  - reflexivity.
  - by exists names.
Defined.

(** ** Set: superset test; sequence: offsets *)

Lemma AStr_not_among_bytes x (l : list string) : AStr x ∉ map ABytes l.
Proof. intros H. apply list_elem_of_fmap in H as (y & Hy & _). discriminate. Qed.

(** X26: [self >= other] and [issuperset] compare the reply of SINTER
    (bytes) with [set(other)] (strings): for another set view whose
    members decode the answer is [True] only when that other set is
    empty, and [False] otherwise, also when every one of its members is
    in [self]. *)
Theorem issuperset_false_unless_empty key key' st s s' :
  members st key = Some s ->
  members st key' = Some s' ->
  forallb valid_utf8 (elements s') = true ->
  RedisSet_issuperset key (PRedisSet key') st
  = Some (st, Return (bool_decide (s' = ∅))).
Proof.
  intros Hs Hs' Hv. unfold RedisSet_issuperset, RedisSet_ge, key_of. run.
  rewrite (sinter_two _ _ _ _ _ Hs Hs').
  rewrite (py_set_RedisSet _ _ _ Hs' Hv). do 3 f_equal.
  apply eq_true_iff_eq. rewrite set_eqb_spec, bool_decide_eq_true. split.
  - intros H. apply set_eq. intros x. split; [|set_solver].
    intros Hx. apply elem_of_map_AStr, H in Hx.
    by apply AStr_not_among_bytes in Hx.
  - intros ->. intros x. rewrite (right_absorb_L ∅ (∩)).
    by rewrite elements_empty.
Qed.

Lemma issuperset_false_unless_empty_witness :
  RedisSet_issuperset "a" (PRedisSet "a") st_ab
  = Some (st_ab, Return (bool_decide (({[ "1"; "2"; "3" ]} : gset string) = ∅))).
Proof.
  apply (issuperset_false_unless_empty "a" "a" st_ab {[ "1"; "2"; "3" ]}
           {[ "1"; "2"; "3" ]}); reflexivity.
Defined.

(** X27: index access takes negative offsets: on a list of non-empty
    decodable elements [self[-(j+1)]] is the element [j] places before
    the end.  An offset outside [-len, len - 1] raises [IndexError]
    when it is one the server reads (a signed 64-bit integer); on a
    non-empty list an offset beyond that range is rejected by the
    server and [ResponseError] comes through, while on an empty
    sequence every offset raises [IndexError]. *)
Theorem getitem_offsets fallback key st l :
  contents st key = Some l ->
  forallb text l = true ->
  (forall (j : nat) b, reverse l !! j = Some b ->
     RedisList_getitem fallback key (IInt (- (Z.of_nat j + 1))) st
     = Some (st, Return (PStr b)))
  /\ (forall i, (Z.of_nat (length l) <= i \/ i < - Z.of_nat (length l)) ->
        int64 i = true ->
        RedisList_getitem fallback key (IInt i) st
        = Some (st, Raise IndexError))
  /\ (forall i, l <> [] -> int64 i = false ->
        int64 (Z.of_nat (length l) + 1) = true ->
        RedisList_getitem fallback key (IInt i) st
        = Some (st, Raise ResponseError))
  /\ (forall i, l = [] ->
        RedisList_getitem fallback key (IInt i) st
        = Some (st, Raise IndexError)).
Proof.
  intros Hl Ht. split; [|split; [|split]].
  - intros j b Hj. apply lookup_lt_Some in Hj as Hlt.
    rewrite length_reverse in Hlt.
    rewrite reverse_lookup in Hj by done.
    apply (getitem_text _ _ _ _ _ _ Hl).
    + unfold element_at. cbv zeta.
      destruct (Z.ltb_spec (- (Z.of_nat j + 1)) 0); [|lia]. zcases.
      rewrite <- Hj. f_equal. lia.
    + rewrite forallb_forall in Ht. apply Ht, list_elem_of_In.
      by eapply list_elem_of_lookup_2.
  - intros i Hi Hok. unfold RedisList_getitem, bind.
    rewrite (getitem_int_contents _ _ _ _ Hl)
      by (right; by apply offset_ok_int64).
    assert (element_at l i = None) as ->; [|done].
    unfold element_at. cbv zeta.
    destruct (Z.ltb_spec i 0); zcases; try done; apply lookup_ge_None; lia.
  - intros i Hne Hbad Hlen. unfold RedisList_getitem, bind.
    by rewrite (getitem_int_unreadable _ _ _ _ Hl Hne
                  (offset_unreadable _ _ Hbad Hlen)).
  - intros i ->. unfold RedisList_getitem, bind.
    rewrite (getitem_int_contents _ _ _ _ Hl) by by left.
    by rewrite element_at_nil.
Qed.

Lemma getitem_offsets_witness :
  RedisList_getitem strict_fallback "q" (IInt (- (Z.of_nat 1 + 1))) st_abc
    = Some (st_abc, Return (PStr "b"))
  /\ RedisList_getitem strict_fallback "q" (IInt 3) st_abc
    = Some (st_abc, Raise IndexError)
  /\ RedisList_getitem strict_fallback "q" (IInt (2 ^ 63)) st_abc
    = Some (st_abc, Raise ResponseError).
Proof.
  destruct (getitem_offsets strict_fallback "q" st_abc ["a"; "b"; "c"]
              eq_refl eq_refl) as (Hneg & Hout & Hbad & _).
  split; [|split].
  - apply (Hneg 1%nat "b" eq_refl).
  - apply (Hout 3); [simpl; lia|reflexivity].
  - apply (Hbad (2 ^ 63)); [discriminate|reflexivity|reflexivity].
Defined.
